(** * DevEvent: the cached Mongoose connection of [lib/mongodb.ts]

    A shallow embedding of the module [lib/mongodb.ts] and of the part of
    the JavaScript run time it relies on: the process environment, the
    global object, a heap of cache records (the record is a shared mutable
    object reached through [global.mongoose] and through the module-level
    constant [cached]), a heap of promises, and the queue of promise
    reactions.  An [async] function is split at its single [await] into the
    part that runs synchronously inside the call and the continuation that
    the job queue runs once the awaited promise is settled.  [Js.step] keeps
    the environment of the process fixed; [step_env] further down adds
    assignments to and deletions from [process.env] between its events. *)

From stdpp Require Import gmap strings list.

(** ** Data *)

Module Js.

(** References into the promise heap and into the heap of cache records. *)
Abbreviation pid := nat.
Abbreviation cref := nat.

(** The native driver connection ([mongoose.Connection]). *)
Record Connection := { conn_id : nat }.

(** A Mongoose instance; [connection] is its [.connection] property. *)
Record Mongoose := { instance_id : nat; connection : Connection }.

(** A JavaScript [Error] object. *)
Record Error := { message : string }.

(** State of a [Promise<Mongoose>]. *)
Inductive PromiseState :=
| Pending
| Fulfilled (v : Mongoose)
| Rejected (e : Error).

(** [interface MongooseCache]. *)
Record MongooseCache := { conn : option Mongoose; promise : option pid }.

(** A reaction registered on a promise [src] and not yet run. *)
Inductive Reaction :=
| ThenReturn (src dst : pid)
    (* [.then((mongooseInstance) => mongooseInstance)], deriving [dst] *)
| AwaitFrame (src : pid) (cache : cref) (result : pid).
    (* a call of [connectToDatabase] suspended at line 79 *)

(** The bindings of one evaluation of the module. *)
Record Module := { MONGODB_URI : option string; cached : cref }.

(** The process. [connects] logs every invocation of [mongoose.connect]
    with its argument and the promise it returned; [calls] logs the promise
    handed to each caller of [connectToDatabase]. *)
Record World := {
  env : gmap string string;
  global_mongoose : option cref;
  caches : list MongooseCache;
  promises : list PromiseState;
  reactions : list Reaction;
  connects : list (option string * pid);
  modules : list Module;
  calls : list pid
}.

#[global] Instance Connection_eq_dec : EqDecision Connection.
Proof. solve_decision. Defined.
#[global] Instance Mongoose_eq_dec : EqDecision Mongoose.
Proof. solve_decision. Defined.
#[global] Instance Error_eq_dec : EqDecision Error.
Proof. solve_decision. Defined.
#[global] Instance PromiseState_eq_dec : EqDecision PromiseState.
Proof. solve_decision. Defined.
#[global] Instance Reaction_eq_dec : EqDecision Reaction.
Proof. solve_decision. Defined.

(** Field updates. *)
Definition with_global (g : option cref) (w : World) : World :=
  {| env := env w; global_mongoose := g; caches := caches w;
     promises := promises w; reactions := reactions w;
     connects := connects w; modules := modules w; calls := calls w |}.

Definition with_caches (cs : list MongooseCache) (w : World) : World :=
  {| env := env w; global_mongoose := global_mongoose w; caches := cs;
     promises := promises w; reactions := reactions w;
     connects := connects w; modules := modules w; calls := calls w |}.

Definition with_promises (ps : list PromiseState) (w : World) : World :=
  {| env := env w; global_mongoose := global_mongoose w; caches := caches w;
     promises := ps; reactions := reactions w;
     connects := connects w; modules := modules w; calls := calls w |}.

Definition with_reactions (rs : list Reaction) (w : World) : World :=
  {| env := env w; global_mongoose := global_mongoose w; caches := caches w;
     promises := promises w; reactions := rs;
     connects := connects w; modules := modules w; calls := calls w |}.

Definition with_connects (l : list (option string * pid)) (w : World) : World :=
  {| env := env w; global_mongoose := global_mongoose w; caches := caches w;
     promises := promises w; reactions := reactions w;
     connects := l; modules := modules w; calls := calls w |}.

Definition with_modules (ms : list Module) (w : World) : World :=
  {| env := env w; global_mongoose := global_mongoose w; caches := caches w;
     promises := promises w; reactions := reactions w;
     connects := connects w; modules := ms; calls := calls w |}.

Definition with_calls (qs : list pid) (w : World) : World :=
  {| env := env w; global_mongoose := global_mongoose w; caches := caches w;
     promises := promises w; reactions := reactions w;
     connects := connects w; modules := modules w; calls := qs |}.

(** ** A state monad with failure

    [None] is a stuck run: a dangling reference, or settling a promise that
    is already settled.  JavaScript has neither; the model has to say what
    happens there and says "no step". *)
Definition M (A : Type) : Type := World -> option (A * World).

Definition ret {A} (a : A) : M A := fun w => Some (a, w).
Definition bind {A B} (m : M A) (k : A -> M B) : M B :=
  fun w => match m w with
           | Some (a, w') => k a w'
           | None => None
           end.
Definition stuck {A} : M A := fun _ => None.

Declare Scope js_scope.
Delimit Scope js_scope with js.
Notation "'let*' x ':=' m 'in' k" := (bind m (fun x => k))
  (at level 10, x name, m at level 100, k at level 200, only parsing) : js_scope.
Notation "m ';;' k" := (bind m (fun _ => k))
  (at level 100, k at level 200, right associativity, only parsing) : js_scope.
Open Scope js_scope.

(** Reads and writes of the fields of a cache record. *)
Definition get_conn (r : cref) : M (option Mongoose) :=
  fun w => match caches w !! r with
           | Some c => Some (conn c, w)
           | None => None
           end.

Definition get_promise (r : cref) : M (option pid) :=
  fun w => match caches w !! r with
           | Some c => Some (promise c, w)
           | None => None
           end.

Definition set_conn (r : cref) (v : option Mongoose) : M unit :=
  fun w => match caches w !! r with
           | Some c =>
               Some (tt, with_caches
                           (<[r := {| conn := v; promise := promise c |}]> (caches w)) w)
           | None => None
           end.

Definition set_promise (r : cref) (p : option pid) : M unit :=
  fun w => match caches w !! r with
           | Some c =>
               Some (tt, with_caches
                           (<[r := {| conn := conn c; promise := p |}]> (caches w)) w)
           | None => None
           end.

(** Promises. *)
Definition new_promise (st : PromiseState) : M pid :=
  fun w => Some (length (promises w), with_promises (promises w ++ [st]) w).

Definition settle (p : pid) (st : PromiseState) : M unit :=
  fun w => match promises w !! p with
           | Some Pending => Some (tt, with_promises (<[p := st]> (promises w)) w)
           | _ => None
           end.

Definition register (rx : Reaction) : M unit :=
  fun w => Some (tt, with_reactions (reactions w ++ [rx]) w).

(** [mongoose.connect(uri, options)]: starts the handshake and returns the
    promise that the driver settles later. *)
Definition mongoose_connect (uri : option string) : M pid :=
  let* p := new_promise Pending in
  (fun w => Some (tt, with_connects (connects w ++ [(uri, p)]) w)) ;;
  ret p.

(** [p.then((mongooseInstance) => mongooseInstance)]. *)
Definition then_return (p : pid) : M pid :=
  let* q := new_promise Pending in
  register (ThenReturn p q) ;;
  ret q.

(** ** The module *)

(** Truthiness of a [string | undefined]. *)
Definition truthy (v : option string) : bool :=
  match v with
  | None => false
  | Some s => negb (String.eqb s EmptyString)
  end.

Definition config_error : Error :=
  {| message := "Invalid configuration: MONGODB_URI environment variable is not set"%string |}.

(** Lines 8-49: evaluation of the module body.  [inl e] is a throw. *)
Definition module_init (w : World) : Error + (Module * World) :=
  let uri := env w !! "MONGO_URI"%string in
  if negb (truthy uri) then inl config_error
  else
    let '(c, w1) :=
      match global_mongoose w with
      | Some r => (r, w)
      | None =>
          (length (caches w),
           with_caches (caches w ++ [{| conn := None; promise := None |}]) w)
      end in
    inr ({| MONGODB_URI := uri; cached := c |}, with_global (Some c) w1).

(** Lines 59-79: [connectToDatabase()] up to its return or its [await].
    The value is the promise the caller receives. *)
Definition connectToDatabase (m : Module) : M pid :=
  let* result := new_promise Pending in
  let* c := get_conn (cached m) in
  match c with
  | Some h => settle result (Fulfilled h) ;; ret result
  | None =>
      let* p := get_promise (cached m) in
      match p with
      | Some _ => ret tt
      | None =>
          let* p0 := mongoose_connect (MONGODB_URI m) in
          let* p1 := then_return p0 in
          set_promise (cached m) (Some p1)
      end ;;
      let* awaited := get_promise (cached m) in
      match awaited with
      | Some p => register (AwaitFrame p (cached m) result) ;; ret result
      | None => stuck
      end
  end.

(** Lines 79-81: the continuation of [connectToDatabase] after the
    [await], given the state [st] of the awaited promise. *)
Definition connectToDatabase_resume (r : cref) (result : pid) (st : PromiseState) : M unit :=
  match st with
  | Pending => stuck
  | Fulfilled v =>
      set_conn r (Some v) ;;
      let* c := get_conn r in
      match c with
      | Some h => settle result (Fulfilled h)
      | None => stuck
      end
  | Rejected e => settle result (Rejected e)
  end.

(** Lines 88-94. *)
Definition getMongoNativeConnection (m : Module) : M (option Connection) :=
  let* c := get_conn (cached m) in
  match c with
  | None => ret None
  | Some h => ret (Some (connection h))
  end.

(** ** The process as a transition system *)

Inductive Event :=
| Import                               (* the module body is evaluated *)
| CallConnect (m : nat)                (* [connectToDatabase()] of instance [m] *)
| CallGetNative (m : nat)              (* [getMongoNativeConnection()] *)
| DriverResolve (p : pid) (h : Mongoose)  (* the handshake succeeds *)
| DriverReject (p : pid) (e : Error)      (* the handshake fails *)
| Tick (i : nat).                      (* the job queue runs reaction [i] *)

Definition reaction_src (rx : Reaction) : pid :=
  match rx with
  | ThenReturn src _ => src
  | AwaitFrame src _ _ => src
  end.

Definition run_reaction (rx : Reaction) (st : PromiseState) : M unit :=
  match rx with
  | ThenReturn _ dst =>
      match st with
      | Pending => stuck
      | _ => settle dst st
      end
  | AwaitFrame _ r result => connectToDatabase_resume r result st
  end.

Definition is_handshake (p : pid) (w : World) : bool :=
  bool_decide (p ∈ (connects w).*2).

Definition step (ev : Event) (w : World) : option World :=
  match ev with
  | Import =>
      match module_init w with
      | inl _ => Some w
      | inr (m, w') => Some (with_modules (modules w' ++ [m]) w')
      end
  | CallConnect i =>
      match modules w !! i with
      | Some m =>
          match connectToDatabase m w with
          | Some (q, w') => Some (with_calls (calls w' ++ [q]) w')
          | None => None
          end
      | None => None
      end
  | CallGetNative i =>
      match modules w !! i with
      | Some m => snd <$> getMongoNativeConnection m w
      | None => None
      end
  | DriverResolve p h =>
      if is_handshake p w then snd <$> settle p (Fulfilled h) w else None
  | DriverReject p e =>
      if is_handshake p w then snd <$> settle p (Rejected e) w else None
  | Tick i =>
      match reactions w !! i with
      | Some rx =>
          match promises w !! reaction_src rx with
          | Some st =>
              snd <$> run_reaction rx st (with_reactions (delete i (reactions w)) w)
          | None => None
          end
      | None => None
      end
  end.

Fixpoint exec (evs : list Event) (w : World) : option World :=
  match evs with
  | [] => Some w
  | ev :: evs' =>
      match step ev w with
      | Some w' => exec evs' w'
      | None => None
      end
  end.

(** The process right after start, with environment [e]. *)
Definition boot (e : gmap string string) : World :=
  {| env := e; global_mongoose := None; caches := []; promises := [];
     reactions := []; connects := []; modules := []; calls := [] |}.

End Js.

Import Js.

(** ** The transition relation

    The same process as a relation, one constructor per path through the
    source; [step] computes exactly this relation. *)

Definition uri_of (w : World) : option string := env w !! "MONGO_URI"%string.

Inductive Step (w : World) : Event → World → Prop :=
| step_import_throw :
    truthy (uri_of w) = false →
    Step w Import w
| step_import_first :
    truthy (uri_of w) = true → global_mongoose w = None →
    Step w Import
      (with_modules
         (modules w ++ [{| MONGODB_URI := uri_of w; cached := length (caches w) |}])
         (with_global (Some (length (caches w)))
            (with_caches (caches w ++ [{| conn := None; promise := None |}]) w)))
| step_import_again r :
    truthy (uri_of w) = true → global_mongoose w = Some r →
    Step w Import
      (with_modules (modules w ++ [{| MONGODB_URI := uri_of w; cached := r |}])
         (with_global (Some r) w))
| step_call_hit i m c h :
    modules w !! i = Some m → caches w !! cached m = Some c → conn c = Some h →
    Step w (CallConnect i)
      (with_calls (calls w ++ [length (promises w)])
         (with_promises (promises w ++ [Fulfilled h]) w))
| step_call_join i m c p :
    modules w !! i = Some m → caches w !! cached m = Some c →
    conn c = None → promise c = Some p →
    Step w (CallConnect i)
      (with_calls (calls w ++ [length (promises w)])
         (with_reactions
            (reactions w ++ [AwaitFrame p (cached m) (length (promises w))])
            (with_promises (promises w ++ [Pending]) w)))
| step_call_start i m c :
    modules w !! i = Some m → caches w !! cached m = Some c →
    conn c = None → promise c = None →
    Step w (CallConnect i)
      {| env := env w; global_mongoose := global_mongoose w;
         caches := <[cached m := {| conn := None;
                                     promise := Some (length (promises w) + 2) |}]>
                     (caches w);
         promises := promises w ++ [Pending; Pending; Pending];
         reactions := reactions w ++
           [ThenReturn (length (promises w) + 1) (length (promises w) + 2);
            AwaitFrame (length (promises w) + 2) (cached m) (length (promises w))];
         connects := connects w ++ [(MONGODB_URI m, length (promises w) + 1)];
         modules := modules w;
         calls := calls w ++ [length (promises w)] |}
| step_get_native i m c :
    modules w !! i = Some m → caches w !! cached m = Some c →
    Step w (CallGetNative i) w
| step_driver_resolve p h :
    p ∈ (connects w).*2 → promises w !! p = Some Pending →
    Step w (DriverResolve p h) (with_promises (<[p := Fulfilled h]> (promises w)) w)
| step_driver_reject p e :
    p ∈ (connects w).*2 → promises w !! p = Some Pending →
    Step w (DriverReject p e) (with_promises (<[p := Rejected e]> (promises w)) w)
| step_tick_then i src dst st :
    reactions w !! i = Some (ThenReturn src dst) →
    promises w !! src = Some st → st ≠ Pending →
    promises w !! dst = Some Pending →
    Step w (Tick i)
      (with_promises (<[dst := st]> (promises w))
         (with_reactions (delete i (reactions w)) w))
| step_tick_fulfilled i src r q v c :
    reactions w !! i = Some (AwaitFrame src r q) →
    promises w !! src = Some (Fulfilled v) →
    caches w !! r = Some c → promises w !! q = Some Pending →
    Step w (Tick i)
      (with_promises (<[q := Fulfilled v]> (promises w))
         (with_caches (<[r := {| conn := Some v; promise := promise c |}]> (caches w))
            (with_reactions (delete i (reactions w)) w)))
| step_tick_rejected i src r q e :
    reactions w !! i = Some (AwaitFrame src r q) →
    promises w !! src = Some (Rejected e) →
    promises w !! q = Some Pending →
    Step w (Tick i)
      (with_promises (<[q := Rejected e]> (promises w))
         (with_reactions (delete i (reactions w)) w)).

(** ** The invariant of the process *)

Section InvariantDefinitions.

Implicit Types (w : World) (m : Module) (c : MongooseCache) (r : cref) (p q : pid).

(** Nothing has been called yet. *)
Definition Fresh w : Prop :=
  promises w = [] ∧ reactions w = [] ∧ connects w = [] ∧ calls w = [].

(** The state of affairs once [cached.promise] of the record [c] at [r] has
    been set to [p1 = p0.then(..)], where [p0] came from [mongoose.connect]. *)
Record Attempt w r c (p0 p1 : pid) : Prop := {
  att_log : ∃ uri, connects w = [(uri, p0)];
  att_ne : p0 ≠ p1;
  att_p0 : is_Some (promises w !! p0);
  att_then :
    (promises w !! p1 = Some Pending ∧ ThenReturn p0 p1 ∈ reactions w) ∨
    (promises w !! p1 ≠ Some Pending ∧ promises w !! p1 = promises w !! p0);
  att_conn : ∀ h, conn c = Some h →
    promises w !! p1 = Some (Fulfilled h) ∧
    ∃ q, q ∈ calls w ∧ promises w !! q = Some (Fulfilled h);
  att_rx : ∀ rx, rx ∈ reactions w →
    rx = ThenReturn p0 p1 ∨ ∃ q, rx = AwaitFrame p1 r q ∧ q ∈ calls w;
  att_calls : ∀ q, q ∈ calls w →
    q ≠ p0 ∧ q ≠ p1 ∧
    ((promises w !! q = Some Pending ∧ AwaitFrame p1 r q ∈ reactions w) ∨
     (promises w !! q ≠ Some Pending ∧ promises w !! q = promises w !! p1))
}.

Definition CacheInv w r c : Prop :=
  match promise c with
  | None => conn c = None ∧ Fresh w
  | Some p1 => ∃ p0, Attempt w r c p0 p1
  end.

Record Inv w : Prop := {
  inv_modules : ∀ m, m ∈ modules w → global_mongoose w = Some (cached m);
  inv_none : global_mongoose w = None → caches w = [] ∧ modules w = [] ∧ Fresh w;
  inv_some : ∀ r, global_mongoose w = Some r →
    ∃ c, caches w !! r = Some c ∧ CacheInv w r c
}.

(** ** What never changes again

    [Extends w w'] collects what a later state [w'] keeps of [w]. *)
Record Extends w w' : Prop := {
  ext_env : env w' = env w;
  ext_global : ∀ r, global_mongoose w = Some r → global_mongoose w' = Some r;
  ext_cache : ∀ r c, global_mongoose w = Some r → caches w !! r = Some c →
    ∃ c', caches w' !! r = Some c' ∧
          (∀ p, promise c = Some p → promise c' = Some p) ∧
          (∀ h, conn c = Some h → conn c' = Some h);
  ext_connects : connects w ≠ [] → connects w' = connects w;
  ext_promises : ∀ p st,
    promises w !! p = Some st → st ≠ Pending → promises w' !! p = Some st;
  ext_calls : ∀ q, q ∈ calls w → q ∈ calls w';
  ext_modules : ∀ m, m ∈ modules w → m ∈ modules w'
}.

End InvariantDefinitions.

(** ** The shape of the module instances, the handshake log and the job queue *)

Section ShapeDefinitions.

Implicit Types (w : World) (m : Module) (c : MongooseCache) (r : cref) (p q : pid).

(** The job queue once [cached.promise] is [p1]: the [then] reaction comes
    first for as long as [p1] is pending, followed by one frame for each
    of the callers [qs], all of them pending and no two the same. *)
Definition Queue w r (p0 p1 : pid) : Prop :=
  ∃ qs, NoDup qs ∧
        (∀ q, q ∈ qs → promises w !! q = Some Pending) ∧
        ((promises w !! p1 = Some Pending ∧
          reactions w = ThenReturn p0 p1 :: (AwaitFrame p1 r <$> qs)) ∨
         (promises w !! p1 ≠ Some Pending ∧
          reactions w = AwaitFrame p1 r <$> qs)).

Record Shape w : Prop := {
  sh_caches : length (caches w) ≤ 1;
  sh_modules : ∀ m, m ∈ modules w → truthy (MONGODB_URI m) = true;
  sh_connects : ∀ u p, (u, p) ∈ connects w → ∃ m, m ∈ modules w ∧ u = MONGODB_URI m;
  sh_lazy : connects w ≠ [] → calls w ≠ [];
  sh_conn : ∀ r c q h,
    global_mongoose w = Some r → caches w !! r = Some c →
    q ∈ calls w → promises w !! q = Some (Fulfilled h) → conn c = Some h;
  sh_queue : ∀ r c u p0 p1,
    global_mongoose w = Some r → caches w !! r = Some c →
    promise c = Some p1 → connects w = [(u, p0)] → Queue w r p0 p1
}.

(** The job queue run to the end, oldest reaction first. *)
Definition drain w : list Event := replicate (length (reactions w)) (Tick 0).

End ShapeDefinitions.

(** ** The process with a changing environment

    [Js.step] leaves [process.env] alone.  Other code of the process may
    assign or delete its entries between two events of the module; line 8
    reads the variable anew at every evaluation.  [step_env] adds these
    two events to the ones of [Js.step]. *)

Definition with_env (e : gmap string string) (w : World) : World :=
  {| env := e; global_mongoose := global_mongoose w; caches := caches w;
     promises := promises w; reactions := reactions w;
     connects := connects w; modules := modules w; calls := calls w |}.

Inductive EnvEvent :=
| Run (ev : Event)                  (* an event of [Js.step] *)
| SetEnv (k v : string)             (* [process.env[k] = v] *)
| DeleteEnv (k : string).           (* [delete process.env[k]] *)

Definition step_env (pe : EnvEvent) (w : World) : option World :=
  match pe with
  | Run ev => step ev w
  | SetEnv k v => Some (with_env (<[k := v]> (env w)) w)
  | DeleteEnv k => Some (with_env (delete k (env w)) w)
  end.

Fixpoint exec_env (pes : list EnvEvent) (w : World) : option World :=
  match pes with
  | [] => Some w
  | pe :: pes' =>
      match step_env pe w with
      | Some w' => exec_env pes' w'
      | None => None
      end
  end.

(** ** Scenarios

    Concrete runs of the process; the theorems are instantiated on them at
    the end of the file. *)

Module Scenario.

Definition uri : string := "mongodb://localhost:27017/devevent".
Definition env_local : gmap string string := {[ "MONGO_URI"%string := uri ]}.
Definition the_handle : Mongoose :=
  {| instance_id := 1; connection := {| conn_id := 70 |} |}.
Definition refused : Error := {| message := "connect ECONNREFUSED 127.0.0.1:27017" |}.
Definition m0 : Module := {| MONGODB_URI := Some uri; cached := 0 |}.

(** One import, two calls before the driver answers. *)
Definition trace_joined : list Event := [Import; CallConnect 0; CallConnect 0].
Definition w_joined : World :=
  {| env := env_local; global_mongoose := Some 0;
     caches := [{| conn := None; promise := Some 2 |}];
     promises := [Pending; Pending; Pending; Pending];
     reactions := [ThenReturn 1 2; AwaitFrame 2 0 0; AwaitFrame 2 0 3];
     connects := [(Some uri, 1)]; modules := [m0]; calls := [0; 3] |}.

(** The handshake succeeds, everybody is resumed, then a third call, a
    second import and a call through the new instance. *)
Definition trace_connected : list Event :=
  trace_joined ++
  [DriverResolve 1 the_handle; Tick 0; Tick 0; Tick 0;
   CallConnect 0; Import; CallConnect 1].
Definition w_connected : World :=
  {| env := env_local; global_mongoose := Some 0;
     caches := [{| conn := Some the_handle; promise := Some 2 |}];
     promises := [Fulfilled the_handle; Fulfilled the_handle; Fulfilled the_handle;
                  Fulfilled the_handle; Fulfilled the_handle; Fulfilled the_handle];
     reactions := [];
     connects := [(Some uri, 1)]; modules := [m0; m0]; calls := [0; 3; 4; 5] |}.

(** The handshake fails instead; the [then] reaction has run. *)
Definition w_refused : World :=
  {| env := env_local; global_mongoose := Some 0;
     caches := [{| conn := None; promise := Some 2 |}];
     promises := [Pending; Rejected refused; Pending; Pending];
     reactions := [ThenReturn 1 2; AwaitFrame 2 0 0; AwaitFrame 2 0 3];
     connects := [(Some uri, 1)]; modules := [m0]; calls := [0; 3] |}.
Definition w_refused_then : World :=
  {| env := env_local; global_mongoose := Some 0;
     caches := [{| conn := None; promise := Some 2 |}];
     promises := [Pending; Rejected refused; Rejected refused; Pending];
     reactions := [AwaitFrame 2 0 0; AwaitFrame 2 0 3];
     connects := [(Some uri, 1)]; modules := [m0]; calls := [0; 3] |}.

(** A third call joins the two of [w_joined]. *)
Definition w_third : World :=
  {| env := env_local; global_mongoose := Some 0;
     caches := [{| conn := None; promise := Some 2 |}];
     promises := [Pending; Pending; Pending; Pending; Pending];
     reactions := [ThenReturn 1 2; AwaitFrame 2 0 0; AwaitFrame 2 0 3; AwaitFrame 2 0 4];
     connects := [(Some uri, 1)]; modules := [m0]; calls := [0; 3; 4] |}.

(** The variable is reassigned between two evaluations of the module, and
    the first call goes through the second instance. *)
Definition uri_other : string := "mongodb://db.internal:27017/devevent".
Definition trace_reconfigured : list EnvEvent :=
  [Run Import; SetEnv "MONGO_URI" uri_other; Run Import; Run (CallConnect 1)].
Definition w_reconfigured : World :=
  {| env := {[ "MONGO_URI"%string := uri_other ]}; global_mongoose := Some 0;
     caches := [{| conn := None; promise := Some 2 |}];
     promises := [Pending; Pending; Pending];
     reactions := [ThenReturn 1 2; AwaitFrame 2 0 0];
     connects := [(Some uri_other, 1)];
     modules := [m0; {| MONGODB_URI := Some uri_other; cached := 0 |}];
     calls := [0] |}.

End Scenario.

Import Scenario.

(** ** Equations of the operations *)

Section Equations.

Implicit Types (w : World) (m : Module) (c : MongooseCache).

Lemma snoc_lookup_new {A} (l : list A) (x : A) : (l ++ [x]) !! length l = Some x.
Proof. by rewrite lookup_app_r, Nat.sub_diag by lia. Qed.

Lemma snoc_insert_new {A} (l : list A) (x y : A) :
  <[length l := y]> (l ++ [x]) = l ++ [y].
Proof.
  replace (length l) with (length l + 0) at 1 by lia.
  by rewrite insert_app_r.
Qed.

(** Line 61-63: the cache already holds a connection. *)
Lemma connectToDatabase_hit m w c h :
  caches w !! cached m = Some c → conn c = Some h →
  connectToDatabase m w =
    Some (length (promises w), with_promises (promises w ++ [Fulfilled h]) w).
Proof.
  intros Hc Hh. unfold connectToDatabase, bind, new_promise, get_conn. simpl.
  rewrite Hc, Hh. unfold settle, ret. simpl.
  rewrite snoc_lookup_new, snoc_insert_new. reflexivity.
Qed.

(** Line 66 finds a promise: the call joins the attempt in flight. *)
Lemma connectToDatabase_join m w c p :
  caches w !! cached m = Some c → conn c = None → promise c = Some p →
  connectToDatabase m w =
    Some (length (promises w),
          with_reactions
            (reactions w ++ [AwaitFrame p (cached m) (length (promises w))])
            (with_promises (promises w ++ [Pending]) w)).
Proof.
  intros Hc Hh Hp. unfold connectToDatabase, bind, new_promise, get_conn, get_promise.
  unfold register, ret.
  repeat (simpl; rewrite ?Hc, ?Hh, ?Hp). reflexivity.
Qed.

(** Lines 66-76: nothing cached, nothing in flight: the handshake starts. *)
Lemma connectToDatabase_start m w c :
  caches w !! cached m = Some c → conn c = None → promise c = None →
  connectToDatabase m w =
    Some (length (promises w),
          {| env := env w; global_mongoose := global_mongoose w;
             caches := <[cached m := {| conn := None;
                                         promise := Some (length (promises w) + 2) |}]>
                         (caches w);
             promises := promises w ++ [Pending; Pending; Pending];
             reactions := reactions w ++
               [ThenReturn (length (promises w) + 1) (length (promises w) + 2);
                AwaitFrame (length (promises w) + 2) (cached m) (length (promises w))];
             connects := connects w ++ [(MONGODB_URI m, length (promises w) + 1)];
             modules := modules w; calls := calls w |}).
Proof.
  intros Hc Hh Hp.
  unfold connectToDatabase, bind, new_promise, get_conn, get_promise.
  repeat (simpl; rewrite ?Hc, ?Hh, ?Hp).
  unfold mongoose_connect, then_return, set_promise, register, bind, new_promise, ret.
  repeat (simpl; rewrite ?Hc, ?Hh, ?Hp).
  rewrite list_lookup_insert_eq by (by eapply lookup_lt_Some). simpl.
  rewrite !length_app. simpl.
  rewrite <- !app_assoc. simpl.
  replace (length (promises w) + 1 + 1) with (length (promises w) + 2) by lia.
  reflexivity.
Qed.

(** The synchronous part of a call never gets stuck on a live record. *)
Lemma connectToDatabase_total m w :
  is_Some (caches w !! cached m) → is_Some (connectToDatabase m w).
Proof.
  intros [c Hc]. destruct (conn c) as [h|] eqn:Hh.
  - erewrite connectToDatabase_hit; eauto.
  - destruct (promise c) as [p|] eqn:Hp.
    + erewrite connectToDatabase_join; eauto.
    + erewrite connectToDatabase_start; eauto.
Qed.

(** The continuation on a fulfilled promise. *)
Lemma resume_fulfilled r q v w c :
  caches w !! r = Some c → promises w !! q = Some Pending →
  connectToDatabase_resume r q (Fulfilled v) w =
    Some (tt, with_promises (<[q := Fulfilled v]> (promises w))
                (with_caches (<[r := {| conn := Some v; promise := promise c |}]> (caches w)) w)).
Proof.
  intros Hc Hq. unfold connectToDatabase_resume, bind, set_conn, get_conn. simpl.
  rewrite Hc. simpl.
  rewrite list_lookup_insert_eq by (by eapply lookup_lt_Some). simpl.
  unfold settle. simpl. rewrite Hq. reflexivity.
Qed.

(** The continuation on a rejected promise: only the result is touched. *)
Lemma resume_rejected r q e w :
  promises w !! q = Some Pending →
  connectToDatabase_resume r q (Rejected e) w =
    Some (tt, with_promises (<[q := Rejected e]> (promises w)) w).
Proof. intros Hq. simpl. unfold settle. by rewrite Hq. Qed.

Lemma getMongoNativeConnection_eq m w c :
  caches w !! cached m = Some c →
  getMongoNativeConnection m w = Some (connection <$> conn c, w).
Proof.
  intros Hc. unfold getMongoNativeConnection, bind, get_conn. rewrite Hc.
  by destruct (conn c).
Qed.

Lemma settle_Some p st w u w' :
  settle p st w = Some (u, w') →
  promises w !! p = Some Pending ∧ w' = with_promises (<[p := st]> (promises w)) w.
Proof.
  unfold settle. destruct (promises w !! p) as [[]|]; intros; by simplify_eq.
Qed.

Lemma with_caches_id w : with_caches (caches w) w = w.
Proof. by destruct w. Qed.

(** What a run of the continuation amounts to. *)
Lemma resume_inv r q st w u w' :
  connectToDatabase_resume r q st w = Some (u, w') →
  st ≠ Pending ∧ promises w !! q = Some Pending ∧
  ∃ cs, w' = with_promises (<[q := st]> (promises w)) (with_caches cs w) ∧
        match st with
        | Fulfilled v =>
            ∃ c, caches w !! r = Some c ∧
                 cs = <[r := {| conn := Some v; promise := promise c |}]> (caches w)
        | _ => cs = caches w
        end.
Proof.
  destruct st as [|v|e]; simpl; [done| |].
  - unfold bind, set_conn, get_conn.
    destruct (caches w !! r) as [c|] eqn:Hc; [|done]. simpl.
    rewrite list_lookup_insert_eq by (by eapply lookup_lt_Some). simpl.
    intros [Hq ->]%settle_Some. simpl in Hq. do 2 (split; [done|]).
    eexists. split; [reflexivity|]. eauto.
  - intros [Hq ->]%settle_Some. do 2 (split; [done|]).
    exists (caches w). by rewrite with_caches_id.
Qed.

End Equations.

(** ** The function [step] and the relation [Step] *)

Section StepRelation.

Implicit Types (w : World) (m : Module) (c : MongooseCache).

Lemma connectToDatabase_dangling m w :
  caches w !! cached m = None → connectToDatabase m w = None.
Proof.
  intros Hc. unfold connectToDatabase, bind, new_promise, get_conn. simpl.
  by rewrite Hc.
Qed.

Lemma getMongoNativeConnection_dangling m w :
  caches w !! cached m = None → getMongoNativeConnection m w = None.
Proof. intros Hc. unfold getMongoNativeConnection, bind, get_conn. by rewrite Hc. Qed.

Lemma step_sound ev w w' : step ev w = Some w' → Step w ev w'.
Proof.
  destruct ev as [|i|i|p h|p e|i]; simpl.
  - unfold module_init. fold (uri_of w). destruct (truthy (uri_of w)) eqn:Ht; simpl.
    + destruct (global_mongoose w) eqn:Hg; intros [= <-];
        [by apply (step_import_again w) | by apply (step_import_first w)].
    + intros [= <-]. by apply (step_import_throw w).
  - destruct (modules w !! i) as [m|] eqn:Hm; [|done].
    destruct (caches w !! cached m) as [c|] eqn:Hc;
      [|by rewrite connectToDatabase_dangling].
    destruct (conn c) as [h|] eqn:Hh; [|destruct (promise c) as [p1|] eqn:Hp].
    + rewrite (connectToDatabase_hit _ _ _ _ Hc Hh). intros [= <-].
      by eapply (step_call_hit w).
    + rewrite (connectToDatabase_join _ _ _ _ Hc Hh Hp). intros [= <-].
      by eapply (step_call_join w).
    + rewrite (connectToDatabase_start _ _ _ Hc Hh Hp). intros [= <-].
      by eapply (step_call_start w).
  - destruct (modules w !! i) as [m|] eqn:Hm; [|done].
    destruct (caches w !! cached m) as [c|] eqn:Hc;
      [|by rewrite getMongoNativeConnection_dangling].
    rewrite (getMongoNativeConnection_eq _ _ _ Hc). simpl. intros [= <-].
    by eapply (step_get_native w).
  - destruct (is_handshake p w) eqn:Hh; [|done].
    destruct (settle _ _ _) as [[u w1]|] eqn:Hs; [|done].
    apply settle_Some in Hs as [? ->]. apply bool_decide_eq_true in Hh.
    simpl. intros [= <-]. by apply (step_driver_resolve w).
  - destruct (is_handshake p w) eqn:Hh; [|done].
    destruct (settle _ _ _) as [[u w1]|] eqn:Hs; [|done].
    apply settle_Some in Hs as [? ->]. apply bool_decide_eq_true in Hh.
    simpl. intros [= <-]. by apply (step_driver_reject w).
  - destruct (reactions w !! i) as [rx|] eqn:Hi; [|done].
    destruct (promises w !! reaction_src rx) as [st|] eqn:Hsrc; [|done].
    destruct rx as [src dst|src r q]; simpl in *.
    + destruct st as [|v|e]; [done| |];
        (destruct (settle _ _ _) as [[u w1]|] eqn:Hs; [|done]);
        apply settle_Some in Hs as [? ->]; simpl; intros [= <-];
        by eapply (step_tick_then w).
    + destruct (connectToDatabase_resume _ _ _ _) as [[u w1]|] eqn:Hrun; [|done].
      apply resume_inv in Hrun as (Hst & Hq & cs & -> & Hcs).
      destruct st as [|v|e]; [done| |].
      * destruct Hcs as (c & Hc & ->). simpl. intros [= <-].
        by eapply (step_tick_fulfilled w).
      * subst cs. rewrite with_caches_id. simpl. intros [= <-].
        by eapply (step_tick_rejected w).
Qed.

Lemma step_complete ev w w' : Step w ev w' → step ev w = Some w'.
Proof.
  destruct 1; simpl.
  - unfold module_init. fold (uri_of w). by rewrite H.
  - unfold module_init. fold (uri_of w). by rewrite H, H0.
  - unfold module_init. fold (uri_of w). by rewrite H, H0.
  - rewrite H. by erewrite connectToDatabase_hit.
  - rewrite H. by erewrite connectToDatabase_join.
  - rewrite H. by erewrite connectToDatabase_start.
  - rewrite H. by erewrite getMongoNativeConnection_eq.
  - unfold is_handshake, settle. by rewrite bool_decide_eq_true_2, H0.
  - unfold is_handshake, settle. by rewrite bool_decide_eq_true_2, H0.
  - rewrite H. simpl. rewrite H0. unfold settle.
    destruct st; [done| |]; simpl; by rewrite H2.
  - rewrite H. simpl. rewrite H0. by erewrite resume_fulfilled.
  - rewrite H. simpl. rewrite H0. by erewrite resume_rejected.
Qed.

(** [step] is the functional presentation of [Step]. *)
Lemma step_Step ev w w' : step ev w = Some w' ↔ Step w ev w'.
Proof. split; [apply step_sound | apply step_complete]. Qed.

End StepRelation.

(** ** The invariant holds in every reachable state *)

Section Invariant.

Implicit Types (w : World) (m : Module) (c : MongooseCache) (r : cref) (p q : pid).

Lemma Inv_boot e : Inv (boot e).
Proof. split; simpl; [intros m Hm; inversion Hm | done | done]. Qed.

Lemma elem_of_delete_ne {A} (l : list A) i (x y : A) :
  l !! i = Some y → x ∈ l → x ≠ y → x ∈ delete i l.
Proof.
  intros Hi Hx Hne. rewrite (delete_Permutation l i y Hi) in Hx.
  apply elem_of_cons in Hx as [?|?]; [congruence | done].
Qed.

Lemma Attempt_p1 w r c p0 p1 : Attempt w r c p0 p1 → is_Some (promises w !! p1).
Proof.
  intros H. destruct (att_then _ _ _ _ _ H) as [[-> _]|[_ ->]]; [eauto|].
  apply (att_p0 _ _ _ _ _ H).
Qed.

(** Evaluating the module keeps the invariant, whether it throws or not. *)
Lemma Inv_import w w' : Inv w → step Import w = Some w' → Inv w'.
Proof.
  intros HI. simpl. unfold module_init.
  destruct (truthy (env w !! "MONGO_URI"%string)); simpl; [|by intros; simplify_eq].
  destruct (global_mongoose w) as [r|] eqn:Hg; intros; simplify_eq.
  - destruct (inv_some _ HI r Hg) as (c & Hc & Hci).
    split; simpl.
    + intros m Hm. apply elem_of_app in Hm as [Hm|Hm].
      * rewrite <- Hg. by apply (inv_modules _ HI).
      * apply list_elem_of_singleton in Hm. by subst.
    + done.
    + intros r' ?; simplify_eq. exists c. split; [done|].
      unfold CacheInv in *. destruct (promise c); [|done].
      destruct Hci as [p0 [? ? ? ? ? ? ?]]. exists p0. by split.
  - destruct (inv_none _ HI Hg) as (Hcs & Hms & Hf).
    split; simpl.
    + intros m Hm. rewrite Hms in Hm. apply list_elem_of_singleton in Hm. by subst.
    + done.
    + intros r' ?; simplify_eq. eexists. split; [apply snoc_lookup_new|].
      by split.
Qed.

Lemma Inv_get_native i w w' : Inv w → step (CallGetNative i) w = Some w' → w' = w.
Proof.
  intros HI. simpl. destruct (modules w !! i) as [m|] eqn:Hm; [|done].
  pose proof (inv_modules _ HI m (list_elem_of_lookup_2 _ _ _ Hm)) as Hg.
  destruct (inv_some _ HI _ Hg) as (c & Hc & _).
  rewrite (getMongoNativeConnection_eq _ _ _ Hc). simpl. congruence.
Qed.


Lemma lookup_snoc_old {A} (l k : list A) i :
  is_Some (l !! i) → (l ++ k) !! i = l !! i.
Proof. intros H. apply lookup_app_l. by apply lookup_lt_is_Some. Qed.

Lemma is_Some_ne_length {A} (l : list A) i : is_Some (l !! i) → i ≠ length l.
Proof. intros H%lookup_lt_is_Some. lia. Qed.

Lemma Attempt_call w r c p0 p1 q :
  Attempt w r c p0 p1 → q ∈ calls w → is_Some (promises w !! q).
Proof.
  intros H Hq. destruct (att_calls _ _ _ _ _ H q Hq) as (_ & _ & [[-> _]|[_ ->]]).
  - eauto.
  - by eapply Attempt_p1.
Qed.

(** A call that finds [cached.conn] populated. *)
Lemma Attempt_hit w r c p0 p1 h :
  Attempt w r c p0 p1 → conn c = Some h →
  Attempt (with_calls (calls w ++ [length (promises w)])
             (with_promises (promises w ++ [Fulfilled h]) w)) r c p0 p1.
Proof.
  intros H Hh.
  pose proof (att_p0 _ _ _ _ _ H) as H0. pose proof (Attempt_p1 _ _ _ _ _ H) as H1.
  destruct (att_conn _ _ _ _ _ H h Hh) as (Hp1 & q0 & Hq0 & Hq0').
  split; simpl.
  - apply (att_log _ _ _ _ _ H).
  - apply (att_ne _ _ _ _ _ H).
  - rewrite lookup_snoc_old; done.
  - rewrite !lookup_snoc_old by done. apply (att_then _ _ _ _ _ H).
  - intros h' Hh'. rewrite lookup_snoc_old by done. split.
    + by apply (att_conn _ _ _ _ _ H).
    + exists q0. split; [apply elem_of_app; by left|].
      rewrite lookup_snoc_old by eauto. congruence.
  - intros rx Hrx. destruct (att_rx _ _ _ _ _ H rx Hrx) as [?|(q & ? & ?)]; [by left|].
    right. exists q. split; [done|]. apply elem_of_app. by left.
  - intros q Hq. apply elem_of_app in Hq as [Hq|Hq].
    + pose proof (Attempt_call _ _ _ _ _ _ H Hq) as Hs.
      rewrite !lookup_snoc_old by done. by apply (att_calls _ _ _ _ _ H).
    + apply list_elem_of_singleton in Hq. subst q.
      split; [by apply not_eq_sym, is_Some_ne_length|].
      split; [by apply not_eq_sym, is_Some_ne_length|].
      right. rewrite snoc_lookup_new, lookup_snoc_old by done. by rewrite Hp1.
Qed.

(** A call that finds an attempt in flight and joins it. *)
Lemma Attempt_join w r c p0 p1 :
  Attempt w r c p0 p1 → conn c = None →
  Attempt (with_calls (calls w ++ [length (promises w)])
             (with_reactions
                (reactions w ++ [AwaitFrame p1 r (length (promises w))])
                (with_promises (promises w ++ [Pending]) w))) r c p0 p1.
Proof.
  intros H Hh.
  pose proof (att_p0 _ _ _ _ _ H) as H0. pose proof (Attempt_p1 _ _ _ _ _ H) as H1.
  split; simpl.
  - apply (att_log _ _ _ _ _ H).
  - apply (att_ne _ _ _ _ _ H).
  - rewrite lookup_snoc_old; done.
  - rewrite !lookup_snoc_old by done.
    destruct (att_then _ _ _ _ _ H) as [[? ?]|?]; [left|by right].
    split; [done|]. apply elem_of_app. by left.
  - intros h' Hh'. congruence.
  - intros rx Hrx. apply elem_of_app in Hrx as [Hrx|Hrx].
    + destruct (att_rx _ _ _ _ _ H rx Hrx) as [?|(q & ? & ?)]; [by left|].
      right. exists q. split; [done|]. apply elem_of_app. by left.
    + apply list_elem_of_singleton in Hrx. right. eexists. split; [done|].
      apply elem_of_app. right. by apply list_elem_of_singleton.
  - intros q Hq. apply elem_of_app in Hq as [Hq|Hq].
    + pose proof (Attempt_call _ _ _ _ _ _ H Hq) as Hs.
      rewrite !lookup_snoc_old by done.
      destruct (att_calls _ _ _ _ _ H q Hq) as (? & ? & [[? ?]|?]).
      * do 2 (split; [done|]). left. split; [done|]. apply elem_of_app. by left.
      * do 2 (split; [done|]). by right.
    + apply list_elem_of_singleton in Hq. subst q.
      split; [by apply not_eq_sym, is_Some_ne_length|].
      split; [by apply not_eq_sym, is_Some_ne_length|].
      left. rewrite snoc_lookup_new. split; [done|].
      apply elem_of_app. right. by apply list_elem_of_singleton.
Qed.

(** The first call: three promises are allocated, the result of the call,
    the handshake and its [then]. *)
Lemma Attempt_start w r uri :
  Fresh w →
  Attempt {| env := env w; global_mongoose := global_mongoose w;
             caches := <[r := {| conn := None; promise := Some 2 |}]> (caches w);
             promises := [Pending; Pending; Pending];
             reactions := [ThenReturn 1 2; AwaitFrame 2 r 0];
             connects := [(uri, 1)];
             modules := modules w; calls := [0] |}
          r {| conn := None; promise := Some 2 |} 1 2.
Proof.
  intros _. split; simpl.
  - eauto.
  - lia.
  - eauto.
  - left. split; [done|]. apply elem_of_cons. by left.
  - done.
  - intros rx Hrx. apply elem_of_cons in Hrx as [->|Hrx]; [by left|].
    apply list_elem_of_singleton in Hrx as ->. right. exists 0. split; [done|].
    by apply list_elem_of_singleton.
  - intros q Hq. apply list_elem_of_singleton in Hq as ->.
    do 2 (split; [lia|]). left. split; [done|].
    apply elem_of_cons. right. by apply list_elem_of_singleton.
Qed.

Lemma Inv_call i w w' : Inv w → step (CallConnect i) w = Some w' → Inv w'.
Proof.
  intros HI. simpl. destruct (modules w !! i) as [m|] eqn:Hm; [|done].
  pose proof (inv_modules _ HI m (list_elem_of_lookup_2 _ _ _ Hm)) as Hg.
  destruct (inv_some _ HI _ Hg) as (c & Hc & Hci).
  unfold CacheInv in Hci.
  destruct (conn c) as [h|] eqn:Hh; [|destruct (promise c) as [p1|] eqn:Hp].
  - rewrite (connectToDatabase_hit _ _ _ _ Hc Hh). intros; simplify_eq.
    destruct (promise c) as [p1|] eqn:Hp; [|by destruct Hci].
    destruct Hci as [p0 HA].
    split; simpl; [apply (inv_modules _ HI) | congruence |].
    intros r ?; simplify_eq. exists c. split; [done|].
    unfold CacheInv. rewrite Hp. exists p0. by apply Attempt_hit.
  - rewrite (connectToDatabase_join _ _ _ _ Hc Hh Hp). intros; simplify_eq.
    destruct Hci as [p0 HA].
    split; simpl; [apply (inv_modules _ HI) | congruence |].
    intros r ?; simplify_eq. exists c. split; [done|].
    unfold CacheInv. rewrite Hp. exists p0. by apply Attempt_join.
  - rewrite (connectToDatabase_start _ _ _ Hc Hh Hp). intros; simplify_eq.
    destruct Hci as (_ & Hf). pose proof Hf as (Hps & Hrs & Hcn & Hcl).
    rewrite Hps, Hrs, Hcn, Hcl. simpl.
    split; simpl; [apply (inv_modules _ HI) | congruence |].
    intros r ?; simplify_eq. eexists. split.
    + apply list_lookup_insert_eq. by eapply lookup_lt_Some.
    + unfold CacheInv. simpl. exists 1. by apply (Attempt_start w).
Qed.


(** The driver settles the handshake promise [p0]. *)
Lemma Attempt_driver w r c p0 p1 st :
  Attempt w r c p0 p1 → promises w !! p0 = Some Pending →
  Attempt (with_promises (<[p0 := st]> (promises w)) w) r c p0 p1.
Proof.
  intros H Hp0.
  pose proof (att_ne _ _ _ _ _ H) as Hne.
  assert (promises w !! p1 = Some Pending ∧ ThenReturn p0 p1 ∈ reactions w) as [Hp1 Hrx].
  { destruct (att_then _ _ _ _ _ H) as [?|[Hn He]]; [done|]. congruence. }
  split; simpl.
  - apply (att_log _ _ _ _ _ H).
  - done.
  - rewrite list_lookup_insert_eq by (by eapply lookup_lt_Some). eauto.
  - left. by rewrite list_lookup_insert_ne.
  - intros h Hh. destruct (att_conn _ _ _ _ _ H h Hh) as [? _]. congruence.
  - apply (att_rx _ _ _ _ _ H).
  - intros q Hq. destruct (att_calls _ _ _ _ _ H q Hq) as (? & ? & Hd).
    do 2 (split; [done|]). by rewrite !list_lookup_insert_ne.
Qed.

(** The job queue runs the [then] reaction: [p1] takes the state of [p0]. *)
Lemma Attempt_then w r c p0 p1 i st :
  Attempt w r c p0 p1 → reactions w !! i = Some (ThenReturn p0 p1) →
  promises w !! p0 = Some st → st ≠ Pending → promises w !! p1 = Some Pending →
  Attempt (with_promises (<[p1 := st]> (promises w))
             (with_reactions (delete i (reactions w)) w)) r c p0 p1.
Proof.
  intros H Hi Hp0 Hst Hp1.
  pose proof (att_ne _ _ _ _ _ H) as Hne.
  split; simpl.
  - apply (att_log _ _ _ _ _ H).
  - done.
  - rewrite list_lookup_insert_ne by done. eauto.
  - right. rewrite list_lookup_insert_eq by (by eapply lookup_lt_Some).
    rewrite list_lookup_insert_ne by done. split; congruence.
  - intros h Hh. destruct (att_conn _ _ _ _ _ H h Hh) as [? _]. congruence.
  - intros rx Hrx%list_elem_of_delete_inv. by apply (att_rx _ _ _ _ _ H).
  - intros q Hq. destruct (att_calls _ _ _ _ _ H q Hq) as (? & ? & [[Hq1 Hq2]|[Hq1 Hq2]]).
    + do 2 (split; [done|]). left. rewrite list_lookup_insert_ne by done.
      split; [done|]. by eapply elem_of_delete_ne.
    + congruence.
Qed.

(** The job queue resumes a frame: its result takes the state of [p1], and
    the record may change to [c'] as long as its [conn] is the value of [p1]. *)
Lemma Attempt_resume w r c c' cs p0 p1 q i st :
  Attempt w r c p0 p1 → reactions w !! i = Some (AwaitFrame p1 r q) →
  promises w !! p1 = Some st → st ≠ Pending → promises w !! q = Some Pending →
  (∀ h, conn c' = Some h → st = Fulfilled h) →
  Attempt (with_promises (<[q := st]> (promises w))
             (with_caches cs (with_reactions (delete i (reactions w)) w)))
          r c' p0 p1.
Proof.
  intros H Hi Hp1 Hst Hq Hc'.
  pose proof (att_ne _ _ _ _ _ H) as Hne.
  assert (q ∈ calls w) as Hqc.
  { destruct (att_rx _ _ _ _ _ H _ (list_elem_of_lookup_2 _ _ _ Hi))
      as [?|(q' & ? & ?)]; by simplify_eq. }
  destruct (att_calls _ _ _ _ _ H q Hqc) as (Hq0 & Hq1 & _).
  assert (promises w !! p1 = promises w !! p0) as H10.
  { destruct (att_then _ _ _ _ _ H) as [[? _]|[_ ?]]; congruence. }
  split; simpl.
  - apply (att_log _ _ _ _ _ H).
  - done.
  - rewrite list_lookup_insert_ne by done. apply (att_p0 _ _ _ _ _ H).
  - right. rewrite !list_lookup_insert_ne by done. split; congruence.
  - intros h Hh. apply Hc' in Hh. subst st.
    rewrite list_lookup_insert_ne by done. split; [done|].
    exists q. split; [done|]. apply list_lookup_insert_eq. by eapply lookup_lt_Some.
  - intros rx Hrx%list_elem_of_delete_inv. by apply (att_rx _ _ _ _ _ H).
  - intros q' Hq'. destruct (att_calls _ _ _ _ _ H q' Hq') as (? & ? & Hd).
    do 2 (split; [done|]). rewrite (list_lookup_insert_ne _ q p1) by done.
    destruct (decide (q' = q)) as [->|Hqq].
    + right. rewrite list_lookup_insert_eq by (by eapply lookup_lt_Some).
      split; congruence.
    + rewrite list_lookup_insert_ne by done.
      destruct Hd as [[? ?]|?]; [left|by right]. split; [done|].
      eapply elem_of_delete_ne; [done..|congruence].
Qed.

Lemma not_Fresh_connects w p : Fresh w → ¬ p ∈ (connects w).*2.
Proof. intros (_ & _ & -> & _) H. inversion H. Qed.

Lemma Inv_driver p st w u w' :
  Inv w → is_handshake p w = true → settle p st w = Some (u, w') → Inv w'.
Proof.
  intros HI Hh [Hp ->]%settle_Some.
  apply bool_decide_eq_true in Hh.
  destruct (global_mongoose w) as [r|] eqn:Hg.
  2:{ destruct (inv_none _ HI Hg) as (_ & _ & Hf). by destruct (not_Fresh_connects _ _ Hf Hh). }
  destruct (inv_some _ HI r Hg) as (c & Hc & Hci). unfold CacheInv in Hci.
  destruct (promise c) as [p1|] eqn:Hp1.
  2:{ destruct Hci as [_ Hf]. by destruct (not_Fresh_connects _ _ Hf Hh). }
  destruct Hci as [p0 HA].
  destruct (att_log _ _ _ _ _ HA) as [uri Hlog]. rewrite Hlog in Hh.
  apply list_elem_of_singleton in Hh. simpl in Hh. subst p.
  split; simpl; [apply (inv_modules _ HI) | congruence |].
  intros r' ?; simplify_eq. exists c. split; [done|].
  unfold CacheInv. rewrite Hp1. exists p0. by apply Attempt_driver.
Qed.

Lemma Inv_tick i w w' : Inv w → step (Tick i) w = Some w' → Inv w'.
Proof.
  intros HI. simpl.
  destruct (reactions w !! i) as [rx|] eqn:Hi; [|done].
  destruct (promises w !! reaction_src rx) as [st|] eqn:Hsrc; [|done].
  destruct (global_mongoose w) as [r|] eqn:Hg.
  2:{ destruct (inv_none _ HI Hg) as (_ & _ & _ & Hr & _). by rewrite Hr in Hi. }
  destruct (inv_some _ HI r Hg) as (c & Hc & Hci). unfold CacheInv in Hci.
  destruct (promise c) as [p1|] eqn:Hp1.
  2:{ destruct Hci as (_ & _ & Hr & _). by rewrite Hr in Hi. }
  destruct Hci as [p0 HA].
  destruct (att_rx _ _ _ _ _ HA _ (list_elem_of_lookup_2 _ _ _ Hi)) as [->|(q & -> & Hq)];
    simpl in Hsrc |- *.
  - assert (st ≠ Pending →
            settle p1 st (with_reactions (delete i (reactions w)) w) = Some (tt, w') →
            Inv w') as Hgo.
    { intros Hst [Hp ->]%settle_Some. simpl in Hp.
      split; simpl; [apply (inv_modules _ HI) | congruence |].
      intros r' ?; simplify_eq. exists c. split; [done|].
      unfold CacheInv. rewrite Hp1. exists p0. by eapply Attempt_then. }
    destruct st as [|v|e]; [done| |];
      (destruct (settle _ _ _) as [[[] w1]|] eqn:Hs; [|done]);
      simpl; intros; simplify_eq; by apply Hgo.
  - destruct (connectToDatabase_resume _ _ _ _) as [[u w1]|] eqn:Hrun; [|done].
    simpl. intros; simplify_eq.
    apply resume_inv in Hrun as (Hst & Hqp & cs & -> & Hcs). simpl in Hqp, Hcs.
    split; simpl; [apply (inv_modules _ HI) | congruence |].
    intros r' ?; simplify_eq.
    destruct st as [|v|e]; [done| |].
    + destruct Hcs as (c0 & Hc0 & ->). simplify_eq.
      eexists. split; [apply list_lookup_insert_eq; by eapply lookup_lt_Some|].
      unfold CacheInv. simpl. rewrite Hp1. exists p0.
      eapply Attempt_resume; eauto. simpl. congruence.
    + subst cs. exists c. split; [done|].
      unfold CacheInv. rewrite Hp1. exists p0.
      eapply Attempt_resume; eauto.
      intros h Hh. destruct (att_conn _ _ _ _ _ HA h Hh) as [? _]. congruence.
Qed.

(** Every step keeps the invariant. *)
Lemma Inv_step ev w w' : Inv w → step ev w = Some w' → Inv w'.
Proof.
  intros HI. destruct ev as [|i|i|p h|p e|i].
  - by apply Inv_import.
  - by apply Inv_call.
  - by intros ->%Inv_get_native.
  - simpl. destruct (is_handshake p w) eqn:Hh; [|done].
    destruct (settle _ _ _) as [[u w1]|] eqn:Hs; [|done].
    simpl. intros; simplify_eq. by eapply Inv_driver.
  - simpl. destruct (is_handshake p w) eqn:Hh; [|done].
    destruct (settle _ _ _) as [[u w1]|] eqn:Hs; [|done].
    simpl. intros; simplify_eq. by eapply Inv_driver.
  - by apply Inv_tick.
Qed.

Lemma Inv_exec evs w w' : Inv w → exec evs w = Some w' → Inv w'.
Proof.
  revert w. induction evs as [|ev evs IH]; intros w HI; simpl.
  - by intros; simplify_eq.
  - destruct (step ev w) as [w1|] eqn:Hs; [|done].
    apply IH. by eapply Inv_step.
Qed.

(** Every state the process can reach satisfies the invariant. *)
Lemma Inv_reachable e evs w : exec evs (boot e) = Some w → Inv w.
Proof. apply Inv_exec, Inv_boot. Qed.

(** ** What never changes again *)

Ltac ext_auto :=
  split; simpl;
  first [ done | congruence | by eauto
        | by (intros; apply elem_of_app; left)
        | by (intros; apply lookup_app_l_Some)
        | idtac ].

Lemma Extends_refl w : Extends w w.
Proof. split; eauto. Qed.

Lemma Extends_trans w1 w2 w3 : Extends w1 w2 → Extends w2 w3 → Extends w1 w3.
Proof.
  intros H12 H23. split.
  - rewrite (ext_env _ _ H23). apply (ext_env _ _ H12).
  - intros r Hr. by apply (ext_global _ _ H23), (ext_global _ _ H12).
  - intros r c Hr Hc.
    destruct (ext_cache _ _ H12 r c Hr Hc) as (c2 & Hc2 & Hp2 & Hh2).
    destruct (ext_cache _ _ H23 r c2 (ext_global _ _ H12 r Hr) Hc2)
      as (c3 & Hc3 & Hp3 & Hh3).
    exists c3. split; [done|]. split; eauto.
  - intros Hne. pose proof (ext_connects _ _ H12 Hne) as E12.
    rewrite <- E12. apply (ext_connects _ _ H23). by rewrite E12.
  - intros p st Hp Hst. apply (ext_promises _ _ H23); [|done].
    by apply (ext_promises _ _ H12).
  - intros q Hq. by apply (ext_calls _ _ H23), (ext_calls _ _ H12).
  - intros m Hm. by apply (ext_modules _ _ H23), (ext_modules _ _ H12).
Qed.

Lemma Extends_settle w p st :
  promises w !! p = Some Pending →
  Extends w (with_promises (<[p := st]> (promises w)) w).
Proof.
  intros Hp. split; simpl; eauto.
  intros p' st' Hp' Hst'. rewrite list_lookup_insert_ne; [done|congruence].
Qed.

Lemma Extends_reactions w rs : Extends w (with_reactions rs w).
Proof. split; simpl; eauto. Qed.

Lemma Step_Extends w ev w' : Inv w → Step w ev w' → Extends w w'.
Proof.
  intros HI HS. destruct HS.
  - apply Extends_refl.
  - ext_auto.
  - ext_auto.
  - ext_auto.
  - ext_auto.
  - pose proof (inv_modules _ HI m (list_elem_of_lookup_2 _ _ _ H)) as Hg.
    destruct (inv_some _ HI _ Hg) as (c0 & Hc0 & Hci). simplify_eq.
    unfold CacheInv in Hci. rewrite H2 in Hci. destruct Hci as (_ & _ & _ & Hcn & _).
    ext_auto.
    intros r c' Hr Hc'. simplify_eq. eexists. split.
    + apply list_lookup_insert_eq. by eapply lookup_lt_Some.
    + split; intros ??; congruence.
  - apply Extends_refl.
  - by apply Extends_settle.
  - by apply Extends_settle.
  - apply (Extends_trans _ (with_reactions (delete i (reactions w)) w));
      [apply Extends_reactions|].
    by apply (Extends_settle (with_reactions (delete i (reactions w)) w) dst).
  - assert (Extends w (with_caches
                         (<[r := {| conn := Some v; promise := promise c |}]> (caches w))
                         (with_reactions (delete i (reactions w)) w))) as HE.
    { ext_auto.
      intros r' c' Hr' Hc'. destruct (decide (r' = r)) as [->|Hne].
      - assert (c' = c) as -> by congruence. eexists. split.
        + apply list_lookup_insert_eq. by eapply lookup_lt_Some.
        + split; [done|]. simpl. intros h Hh.
          destruct (inv_some _ HI _ Hr') as (c0 & Hc0 & Hci).
          assert (c0 = c) as -> by congruence.
          unfold CacheInv in Hci. destruct (promise c) as [p1|] eqn:Hp1;
            [|destruct Hci; congruence].
          destruct Hci as [p0 HA].
          destruct (att_conn _ _ _ _ _ HA h Hh) as [Hp1h _].
          destruct (att_rx _ _ _ _ _ HA _ (list_elem_of_lookup_2 _ _ _ H))
            as [?|(q' & ? & ?)]; simplify_eq. congruence.
      - exists c'. by rewrite list_lookup_insert_ne. }
    eapply Extends_trans; [apply HE|].
    by apply (Extends_settle
                (with_caches
                   (<[r := {| conn := Some v; promise := promise c |}]> (caches w))
                   (with_reactions (delete i (reactions w)) w)) q).
  - apply (Extends_trans _ (with_reactions (delete i (reactions w)) w));
      [apply Extends_reactions|].
    by apply (Extends_settle (with_reactions (delete i (reactions w)) w) q).
Qed.

Lemma exec_Extends evs w w' : Inv w → exec evs w = Some w' → Extends w w'.
Proof.
  revert w. induction evs as [|ev evs IH]; intros w HI; simpl.
  - intros [= <-]. apply Extends_refl.
  - destruct (step ev w) as [w1|] eqn:Hs; [|done]. intros Hex.
    eapply Extends_trans.
    + by apply (Step_Extends _ ev), step_Step.
    + apply IH; [by eapply Inv_step|done].
Qed.

End Invariant.

(** ** Module load *)

Section ModuleLoad.

Implicit Types (w : World) (e : gmap string string).

(** With a falsy [process.env.MONGO_URI] the body throws at line 11. *)
Lemma module_init_falsy w :
  truthy (uri_of w) = false → module_init w = inl config_error.
Proof. intros H. unfold module_init. fold (uri_of w). by rewrite H. Qed.

(** A process whose variable is falsy never leaves its initial state: every
    import throws, and no other event is enabled. *)
Lemma boot_falsy_step e ev w :
  truthy (e !! "MONGO_URI"%string) = false → step ev (boot e) = Some w → w = boot e.
Proof.
  intros Hf. destruct ev; simpl; try done.
  rewrite module_init_falsy by done. congruence.
Qed.

Lemma boot_falsy_exec e evs w :
  truthy (e !! "MONGO_URI"%string) = false → exec evs (boot e) = Some w → w = boot e.
Proof.
  intros Hf. induction evs as [|ev evs IH]; simpl; [congruence|].
  destruct (step ev (boot e)) as [w1|] eqn:Hs; [|done].
  apply boot_falsy_step in Hs as ->; done.
Qed.

(** C3: if [process.env.MONGO_URI] is absent, evaluating the module throws
    the configuration error at line 11, before the cache record or any
    binding exists; in a process started with such an environment every
    reachable state is the initial one, where [connectToDatabase] cannot be
    called (no module instance exports it) and no promise, hence no handle,
    exists.  The variable read is [MONGO_URI]; the message names
    [MONGODB_URI]. *)
Theorem C3_absent_uri_throws_at_load e :
  e !! "MONGO_URI"%string = None →
  (∀ w, env w = e → module_init w = inl config_error) ∧
  (∀ evs w, exec evs (boot e) = Some w →
     w = boot e ∧ promises w = [] ∧ ∀ i, step (CallConnect i) w = None).
Proof.
  intros He. split.
  - intros w <-. apply module_init_falsy. unfold uri_of. by rewrite He.
  - intros evs w Hex. apply boot_falsy_exec in Hex as ->; [done|]. by rewrite He.
Qed.

Lemma C3_absent_uri_witness :
  module_init (boot {[ "MONGODB_URI"%string := "mongodb://localhost/dev"%string ]})
  = inl config_error.
Proof.
  refine (proj1 (C3_absent_uri_throws_at_load
                   {[ "MONGODB_URI"%string := "mongodb://localhost/dev"%string ]} _)
            _ eq_refl).
  vm_compute. reflexivity.
Defined.

(** C10: the test at line 10 is [!MONGODB_URI], so the empty string is
    treated as the absent value: the module throws the same configuration
    error, and the process stays in its initial state in the same way. *)
Theorem C10_empty_uri_throws_at_load e :
  e !! "MONGO_URI"%string = Some EmptyString →
  (∀ w, env w = e → module_init w = inl config_error) ∧
  (∀ evs w, exec evs (boot e) = Some w →
     w = boot e ∧ promises w = [] ∧ ∀ i, step (CallConnect i) w = None).
Proof.
  intros He. split.
  - intros w <-. apply module_init_falsy. unfold uri_of. by rewrite He.
  - intros evs w Hex. apply boot_falsy_exec in Hex as ->; [done|]. by rewrite He.
Qed.

Lemma C10_empty_uri_witness :
  module_init (boot {[ "MONGO_URI"%string := EmptyString ]}) = inl config_error.
Proof.
  refine (proj1 (C10_empty_uri_throws_at_load {[ "MONGO_URI"%string := EmptyString ]} _)
            _ eq_refl).
  vm_compute. reflexivity.
Defined.

End ModuleLoad.

(** ** The two exported operations on a given cache record *)

Section Operations.

Implicit Types (w : World) (m : Module) (c : MongooseCache).

(** C4: when [cached.conn] is populated, [connectToDatabase()] returns at
    line 62: the promise handed to the caller is already fulfilled with the
    cached handle, no frame is suspended, [mongoose.connect] is not invoked,
    and the cache records are left as they were. *)
Theorem C4_cached_connection_returned m w c h :
  caches w !! cached m = Some c → conn c = Some h →
  ∃ q w', connectToDatabase m w = Some (q, w') ∧
          promises w' !! q = Some (Fulfilled h) ∧
          connects w' = connects w ∧
          reactions w' = reactions w ∧
          caches w' = caches w ∧
          w' = with_promises (promises w ++ [Fulfilled h]) w.
Proof.
  intros Hc Hh. eexists _, _. split; [by eapply connectToDatabase_hit|].
  simpl. split; [apply snoc_lookup_new|done].
Qed.

(** A populated [cached.conn] in a reachable state is the result some caller
    has already received. *)
Lemma conn_has_caller e evs w r c h :
  exec evs (boot e) = Some w → global_mongoose w = Some r →
  caches w !! r = Some c → conn c = Some h →
  ∃ q, q ∈ calls w ∧ promises w !! q = Some (Fulfilled h).
Proof.
  intros Hex Hg Hc Hh. pose proof (Inv_reachable _ _ _ Hex) as HI.
  destruct (inv_some _ HI r Hg) as (c0 & Hc0 & Hci).
  assert (c0 = c) as -> by congruence. unfold CacheInv in Hci.
  destruct (promise c) as [p1|]; [|destruct Hci; congruence].
  destruct Hci as [p0 HA]. by destruct (att_conn _ _ _ _ _ HA h Hh).
Qed.

(** C5: [getMongoNativeConnection()] returns [null] when [cached.conn] is
    not populated and [cached.conn.connection] when it is; in particular, in
    every reachable state in which no caller of [connectToDatabase] has
    received a handle, every module instance returns [null]. *)
Theorem C5_native_connection_of_cache :
  (∀ m w c, caches w !! cached m = Some c →
     (conn c = None → getMongoNativeConnection m w = Some (None, w)) ∧
     (∀ h, conn c = Some h →
        getMongoNativeConnection m w = Some (Some (connection h), w))) ∧
  (∀ e evs w m, exec evs (boot e) = Some w → m ∈ modules w →
     (∀ q h, q ∈ calls w → promises w !! q ≠ Some (Fulfilled h)) →
     getMongoNativeConnection m w = Some (None, w)).
Proof.
  split.
  - intros m w c Hc. rewrite (getMongoNativeConnection_eq _ _ _ Hc).
    split; [by intros ->|by intros h ->].
  - intros e evs w m Hex Hm Hnone. pose proof (Inv_reachable _ _ _ Hex) as HI.
    pose proof (inv_modules _ HI m Hm) as Hg.
    destruct (inv_some _ HI _ Hg) as (c & Hc & _).
    rewrite (getMongoNativeConnection_eq _ _ _ Hc).
    destruct (conn c) as [h|] eqn:Hh; [|done].
    destruct (conn_has_caller _ _ _ _ _ _ Hex Hg Hc Hh) as (q & Hq & Hqh).
    by destruct (Hnone q h Hq).
Qed.

(** C8: [getMongoNativeConnection()] only reads: whenever it returns, the
    world it leaves is the world it found, and on every live cache record
    it does return, with the record, the promises, the reaction queue and
    the log of handshakes untouched. *)
Theorem C8_native_connection_pure m w :
  (∀ v w', getMongoNativeConnection m w = Some (v, w') → w' = w) ∧
  (∀ c, caches w !! cached m = Some c →
     ∃ v w', getMongoNativeConnection m w = Some (v, w') ∧
             caches w' !! cached m = Some c ∧
             promises w' = promises w ∧ reactions w' = reactions w ∧
             connects w' = connects w).
Proof.
  split.
  - intros v w'. destruct (caches w !! cached m) as [c|] eqn:Hc.
    + rewrite (getMongoNativeConnection_eq _ _ _ Hc). congruence.
    + by rewrite getMongoNativeConnection_dangling.
  - intros c Hc. eexists _, w. by rewrite (getMongoNativeConnection_eq _ _ _ Hc).
Qed.

(** C7: evaluating the module again while [global.mongoose] holds a record
    binds [cached] to that same record and allocates nothing; a call through
    the new instance is served from it: a populated [conn] is returned as it
    is, a promise in flight is awaited, and in both cases [mongoose.connect]
    is not invoked. *)
Theorem C7_reload_reuses_global_cache w r c :
  global_mongoose w = Some r → caches w !! r = Some c →
  truthy (uri_of w) = true →
  ∃ m w1, module_init w = inr (m, w1) ∧
          cached m = r ∧ global_mongoose w1 = Some r ∧
          caches w1 = caches w ∧ connects w1 = connects w ∧
          promises w1 = promises w ∧
          ∃ q w2, connectToDatabase m w1 = Some (q, w2) ∧
                  (∀ h, conn c = Some h →
                     promises w2 !! q = Some (Fulfilled h) ∧
                     connects w2 = connects w) ∧
                  (∀ p, conn c = None → promise c = Some p →
                     AwaitFrame p r q ∈ reactions w2 ∧
                     caches w2 = caches w ∧
                     connects w2 = connects w).
Proof.
  intros Hg Hc Ht.
  exists {| MONGODB_URI := uri_of w; cached := r |}, (with_global (Some r) w).
  split; [unfold module_init; fold (uri_of w); by rewrite Ht, Hg|].
  do 5 (split; [done|]).
  destruct (conn c) as [h|] eqn:Hh; [|destruct (promise c) as [p|] eqn:Hp].
  - eexists _, _. split; [by eapply connectToDatabase_hit|].
    split; [|done]. intros h' [= <-]. simpl. split; [apply snoc_lookup_new|done].
  - eexists _, _. split; [by eapply connectToDatabase_join|].
    split; [done|]. intros p' _ [= <-]. simpl. split; [|done].
    apply elem_of_app. right. by apply list_elem_of_singleton.
  - eexists _, _. split; [by eapply connectToDatabase_start|]. done.
Qed.

End Operations.

(** ** The process as a whole *)

Section Process.

Implicit Types (w : World) (m : Module) (c : MongooseCache) (e : gmap string string).

(** Once somebody has called, the record on the global object holds a
    promise and the state is the one described by [Attempt]. *)
Lemma Inv_attempt_of_call w q :
  Inv w → q ∈ calls w →
  ∃ r c p0 p1, global_mongoose w = Some r ∧ caches w !! r = Some c ∧
               promise c = Some p1 ∧ Attempt w r c p0 p1.
Proof.
  intros HI Hq. destruct (global_mongoose w) as [r|] eqn:Hg.
  - destruct (inv_some _ HI r Hg) as (c & Hc & Hci). unfold CacheInv in Hci.
    destruct (promise c) as [p1|] eqn:Hp1.
    + destruct Hci as [p0 HA]. by exists r, c, p0, p1.
    + destruct Hci as (_ & _ & _ & _ & Hcl). rewrite Hcl in Hq. inversion Hq.
  - destruct (inv_none _ HI Hg) as (_ & _ & _ & _ & _ & Hcl).
    rewrite Hcl in Hq. inversion Hq.
Qed.

Lemma Inv_connects_le w : Inv w → length (connects w) ≤ 1.
Proof.
  intros HI. destruct (global_mongoose w) as [r|] eqn:Hg.
  - destruct (inv_some _ HI r Hg) as (c & Hc & Hci). unfold CacheInv in Hci.
    destruct (promise c) as [p1|].
    + destruct Hci as [p0 HA]. destruct (att_log _ _ _ _ _ HA) as [uri ->]. simpl. lia.
    + destruct Hci as (_ & _ & _ & -> & _). simpl. lia.
  - destruct (inv_none _ HI Hg) as (_ & _ & _ & _ & -> & _). simpl. lia.
Qed.

(** A settled result of a call is the state of the handshake promise. *)
Lemma Attempt_settled_call w r c p0 p1 q st :
  Attempt w r c p0 p1 → q ∈ calls w →
  promises w !! q = Some st → st ≠ Pending →
  promises w !! p0 = Some st ∧ promises w !! p1 = Some st.
Proof.
  intros HA Hq Hst Hne.
  destruct (att_calls _ _ _ _ _ HA q Hq) as (_ & _ & [[? _]|[_ Hq1]]); [congruence|].
  destruct (att_then _ _ _ _ _ HA) as [[? _]|[_ H10]]; split; congruence.
Qed.

(** C1: in every state the process can reach, whatever the interleaving of
    imports, calls, driver completions and resumed continuations,
    [mongoose.connect] has been invoked at most once, every caller of
    [connectToDatabase] whose promise is fulfilled holds the value the
    handshake promise was fulfilled with, and so any two of them hold the
    same handle. *)
Theorem C1_single_handshake_shared_handle e evs w :
  exec evs (boot e) = Some w →
  length (connects w) ≤ 1 ∧
  (∀ q h, q ∈ calls w → promises w !! q = Some (Fulfilled h) →
     ∃ uri p0, connects w = [(uri, p0)] ∧ promises w !! p0 = Some (Fulfilled h)) ∧
  (∀ q1 q2 h1 h2, q1 ∈ calls w → q2 ∈ calls w →
     promises w !! q1 = Some (Fulfilled h1) →
     promises w !! q2 = Some (Fulfilled h2) → h1 = h2).
Proof.
  intros Hex. pose proof (Inv_reachable _ _ _ Hex) as HI.
  split; [by apply Inv_connects_le|].
  assert (∀ q h, q ∈ calls w → promises w !! q = Some (Fulfilled h) →
            ∃ uri p0, connects w = [(uri, p0)] ∧
                      promises w !! p0 = Some (Fulfilled h)) as Hone.
  { intros q h Hq Hqh.
    destruct (Inv_attempt_of_call _ _ HI Hq) as (r & c & p0 & p1 & _ & _ & _ & HA).
    destruct (att_log _ _ _ _ _ HA) as [uri Hlog]. exists uri, p0. split; [done|].
    by destruct (Attempt_settled_call _ _ _ _ _ _ _ HA Hq Hqh). }
  split; [done|].
  intros q1 q2 h1 h2 Hq1 Hq2 H1 H2.
  destruct (Hone _ _ Hq1 H1) as (u1 & a1 & Hl1 & Ha1).
  destruct (Hone _ _ Hq2 H2) as (u2 & a2 & Hl2 & Ha2).
  congruence.
Qed.

(** C6: the record is created at the first evaluation of the module with
    both fields [null]; in every reachable state a populated [conn] is the
    value the promise stored in [promise] was fulfilled with; and whatever
    happens afterwards, a populated [conn] keeps its handle and a set
    [promise] keeps its promise. *)
Theorem C6_cache_record_invariant :
  (∀ w m w1, global_mongoose w = None → module_init w = inr (m, w1) →
     global_mongoose w1 = Some (cached m) ∧
     caches w1 !! cached m = Some {| conn := None; promise := None |}) ∧
  (∀ e evs w r c, exec evs (boot e) = Some w →
     global_mongoose w = Some r → caches w !! r = Some c →
     (∀ h, conn c = Some h →
        ∃ p, promise c = Some p ∧ promises w !! p = Some (Fulfilled h)) ∧
     (∀ evs' w', exec evs' w = Some w' →
        ∃ c', global_mongoose w' = Some r ∧ caches w' !! r = Some c' ∧
              (∀ h, conn c = Some h → conn c' = Some h) ∧
              (∀ p, promise c = Some p → promise c' = Some p))).
Proof.
  split.
  - intros w m w1 Hg. unfold module_init. rewrite Hg.
    destruct (negb _); intros; simplify_eq. simpl. split; [done|].
    apply snoc_lookup_new.
  - intros e evs w r c Hex Hg Hc. pose proof (Inv_reachable _ _ _ Hex) as HI. split.
    + intros h Hh. destruct (inv_some _ HI r Hg) as (c0 & Hc0 & Hci).
      assert (c0 = c) as -> by congruence. unfold CacheInv in Hci.
      destruct (promise c) as [p1|]; [|destruct Hci; congruence].
      destruct Hci as [p0 HA]. exists p1. split; [done|].
      by destruct (att_conn _ _ _ _ _ HA h Hh).
    + intros evs' w' Hex'. pose proof (exec_Extends _ _ _ HI Hex') as HE.
      destruct (ext_cache _ _ HE r c Hg Hc) as (c' & Hc' & Hp & Hh).
      exists c'. split; [by apply (ext_global _ _ HE)|]. done.
Qed.

(** Once the handshake promise is rejected, nothing has been or will be
    cached, and everybody is on the way to the same rejection. *)
Lemma Attempt_poisoned w r c p0 p1 err :
  Attempt w r c p0 p1 → promises w !! p0 = Some (Rejected err) →
  conn c = None ∧
  (promises w !! p1 = Some (Rejected err) ∨
   (promises w !! p1 = Some Pending ∧ ThenReturn p0 p1 ∈ reactions w)) ∧
  (∀ q, q ∈ calls w →
     promises w !! q = Some (Rejected err) ∨
     (promises w !! q = Some Pending ∧ AwaitFrame p1 r q ∈ reactions w)).
Proof.
  intros HA Hp0.
  assert (promises w !! p1 = Some (Rejected err) ∨
          (promises w !! p1 = Some Pending ∧ ThenReturn p0 p1 ∈ reactions w)) as Hp1.
  { destruct (att_then _ _ _ _ _ HA) as [?|[_ ?]]; [by right|left; congruence]. }
  split; [|split; [done|]].
  - destruct (conn c) as [h|] eqn:Hh; [|done].
    destruct (att_conn _ _ _ _ _ HA h Hh) as [Hf _].
    destruct Hp1 as [?|[? _]]; congruence.
  - intros q Hq.
    destruct (att_calls _ _ _ _ _ HA q Hq) as (_ & _ & [?|[Hn Heq]]); [by right|].
    left. destruct Hp1 as [?|[? _]]; congruence.
Qed.

(** C2: let the driver reject the handshake promise [p] with [err] in a
    reachable state.  Then there are the record [r] and the promise [p1]
    stored in it such that in every later state: [cached.promise] is still
    [p1] and [cached.conn] is still [null]; the log of handshakes is the one
    of the moment of the failure, a single entry; [p] stays rejected and
    [p1] is rejected with [err] as soon as its [then] reaction has run;
    every caller, earlier or later, is rejected with [err] or still
    suspended on [p1], and resuming it rejects it with [err]; and a new call
    through any module instance joins [p1] without a new handshake. *)
Theorem C2_failed_handshake_is_permanent e evs0 w0 p err w1 :
  exec evs0 (boot e) = Some w0 →
  step (DriverReject p err) w0 = Some w1 →
  ∃ r p1, ∀ evs w, exec evs w1 = Some w →
    ∃ c, global_mongoose w = Some r ∧ caches w !! r = Some c ∧
      promise c = Some p1 ∧ conn c = None ∧
      connects w = connects w1 ∧ length (connects w) = 1 ∧
      promises w !! p = Some (Rejected err) ∧
      (promises w !! p1 = Some (Rejected err) ∨
       (promises w !! p1 = Some Pending ∧ ThenReturn p p1 ∈ reactions w)) ∧
      (∀ i, reactions w !! i = Some (ThenReturn p p1) →
         promises w !! p1 = Some Pending →
         ∃ w', step (Tick i) w = Some w' ∧
               promises w' !! p1 = Some (Rejected err)) ∧
      (∀ q, q ∈ calls w →
         promises w !! q = Some (Rejected err) ∨
         (promises w !! q = Some Pending ∧ AwaitFrame p1 r q ∈ reactions w)) ∧
      (∀ i q, reactions w !! i = Some (AwaitFrame p1 r q) →
         promises w !! p1 = Some (Rejected err) →
         promises w !! q = Some Pending →
         ∃ w', step (Tick i) w = Some w' ∧
               promises w' !! q = Some (Rejected err)) ∧
      (∀ i m, modules w !! i = Some m →
         ∃ w' q, step (CallConnect i) w = Some w' ∧
                 connects w' = connects w ∧ caches w' = caches w ∧
                 calls w' = calls w ++ [q] ∧
                 promises w' !! q = Some Pending ∧
                 AwaitFrame p1 r q ∈ reactions w').
Proof.
  intros Hex0 Hrej.
  pose proof (Inv_reachable _ _ _ Hex0) as HI0.
  pose proof (Inv_step _ _ _ HI0 Hrej) as HI1.
  apply step_Step in Hrej. inversion Hrej as [| | | | | | | |p' e' Hin Hp| | |]; subst.
  set (w1 := with_promises (<[p := Rejected err]> (promises w0)) w0) in *.
  assert (promises w1 !! p = Some (Rejected err)) as Hp1r.
  { simpl. apply list_lookup_insert_eq. by eapply lookup_lt_Some. }
  assert (connects w1 ≠ []) as Hcne.
  { simpl. intros Heq. rewrite Heq in Hin. inversion Hin. }
  destruct (global_mongoose w1) as [r|] eqn:Hg1.
  2:{ by destruct (inv_none _ HI1 Hg1) as (_ & _ & _ & _ & ? & _). }
  destruct (inv_some _ HI1 r Hg1) as (c1 & Hc1 & Hci1). unfold CacheInv in Hci1.
  destruct (promise c1) as [p1|] eqn:Hpr1.
  2:{ by destruct Hci1 as (_ & _ & _ & ? & _). }
  exists r, p1. intros evs w Hex.
  pose proof (Inv_exec _ _ _ HI1 Hex) as HI.
  pose proof (exec_Extends _ _ _ HI1 Hex) as HE.
  pose proof (ext_global _ _ HE r Hg1) as Hg.
  destruct (ext_cache _ _ HE r c1 Hg1 Hc1) as (c & Hc & Hpr & _).
  specialize (Hpr p1 Hpr1).
  pose proof (ext_connects _ _ HE Hcne) as Hcn.
  pose proof (ext_promises _ _ HE p _ Hp1r ltac:(done)) as Hpw.
  destruct (inv_some _ HI r Hg) as (c0 & Hc0 & Hci).
  assert (c0 = c) as -> by congruence. unfold CacheInv in Hci. rewrite Hpr in Hci.
  destruct Hci as [p0 HA].
  destruct (att_log _ _ _ _ _ HA) as [uri Hlog].
  assert (p0 = p) as ->.
  { assert (connects w = connects w0) as Hcn0 by done.
    rewrite <- Hcn0, Hlog in Hin. apply list_elem_of_singleton in Hin. by simpl in Hin. }
  destruct (Attempt_poisoned _ _ _ _ _ _ HA Hpw) as (Hconn & Hp1 & Hcalls).
  exists c. do 5 (split; [done|]).
  split; [by rewrite Hlog|]. do 2 (split; [done|]).
  split; [|split; [done|split]].
  - intros i Hi Hpend. eexists. split.
    + apply step_Step. by eapply (step_tick_then w).
    + simpl. apply list_lookup_insert_eq. by eapply lookup_lt_Some.
  - intros i q Hi Hrejd Hpend. eexists. split.
    + apply step_Step. by eapply (step_tick_rejected w).
    + simpl. apply list_lookup_insert_eq. by eapply lookup_lt_Some.
  - intros i m Hm.
    pose proof (inv_modules _ HI m (list_elem_of_lookup_2 _ _ _ Hm)) as Hgm.
    assert (cached m = r) as Hr by congruence.
    eexists _, _. split.
    + apply step_Step. eapply (step_call_join w); [done| |done..]. by rewrite Hr.
    + simpl. do 3 (split; [done|]). rewrite Hr.
      split; [apply snoc_lookup_new|].
      apply elem_of_app. right. by apply list_elem_of_singleton.
Qed.

End Process.

(** ** The theorems on the scenarios *)

Lemma run_joined : exec trace_joined (boot env_local) = Some w_joined.
Proof. vm_compute. reflexivity. Qed.

Lemma run_connected : exec trace_connected (boot env_local) = Some w_connected.
Proof. vm_compute. reflexivity. Qed.

Lemma run_refused : step (DriverReject 1 refused) w_joined = Some w_refused.
Proof. vm_compute. reflexivity. Qed.

Lemma run_refused_then : step (Tick 0) w_refused = Some w_refused_then.
Proof. vm_compute. reflexivity. Qed.

Lemma C1_witness :
  length (connects w_connected) ≤ 1 ∧
  ∃ u p0, connects w_connected = [(u, p0)] ∧
          promises w_connected !! p0 = Some (Fulfilled the_handle).
Proof.
  destruct (C1_single_handshake_shared_handle env_local trace_connected w_connected)
    as (H1 & H2 & _).
  - vm_compute. reflexivity.
  - split; [exact H1|]. apply (H2 5 the_handle); [|reflexivity].
    do 3 apply list_elem_of_further. apply list_elem_of_here.
Defined.

Lemma C2_witness :
  ∃ r p1, ∀ evs w, exec evs w_refused = Some w →
    ∃ c, caches w !! r = Some c ∧ promise c = Some p1 ∧ conn c = None ∧
         length (connects w) = 1 ∧
         ∀ q, q ∈ calls w →
           promises w !! q = Some (Rejected refused) ∨
           (promises w !! q = Some Pending ∧ AwaitFrame p1 r q ∈ reactions w).
Proof.
  destruct (C2_failed_handshake_is_permanent
              env_local trace_joined w_joined 1 refused w_refused) as (r & p1 & H).
  - vm_compute. reflexivity.
  - vm_compute. reflexivity.
  - exists r, p1. intros evs w Hex.
    destruct (H evs w Hex) as (c & _ & Hc & Hp & Hn & _ & Hl & _ & _ & _ & Hq & _).
    exists c. repeat split; assumption.
Defined.

Lemma C4_witness :
  ∃ q w', connectToDatabase m0 w_connected = Some (q, w') ∧
          promises w' !! q = Some (Fulfilled the_handle) ∧
          connects w' = connects w_connected ∧
          reactions w' = reactions w_connected ∧
          caches w' = caches w_connected ∧
          w' = with_promises (promises w_connected ++ [Fulfilled the_handle]) w_connected.
Proof.
  apply (C4_cached_connection_returned m0 w_connected
           {| conn := Some the_handle; promise := Some 2 |} the_handle);
    reflexivity.
Defined.

Lemma C5_witness :
  getMongoNativeConnection m0 w_connected
    = Some (Some {| conn_id := 70 |}, w_connected) ∧
  getMongoNativeConnection m0 w_joined = Some (None, w_joined).
Proof.
  destruct C5_native_connection_of_cache as [Hfun Hrun]. split.
  - apply (proj2 (Hfun m0 w_connected
                    {| conn := Some the_handle; promise := Some 2 |} eq_refl)
             the_handle).
    reflexivity.
  - apply (Hrun env_local trace_joined w_joined m0).
    + vm_compute. reflexivity.
    + apply list_elem_of_here.
    + intros q h Hq. apply elem_of_cons in Hq as [->|Hq]; [discriminate|].
      apply list_elem_of_singleton in Hq as ->. discriminate.
Defined.

Lemma C6_witness :
  (∃ m w1, module_init (boot env_local) = inr (m, w1) ∧
           caches w1 !! cached m = Some {| conn := None; promise := None |}) ∧
  (∀ evs' w', exec evs' w_joined = Some w' →
     ∃ c', caches w' !! 0 = Some c' ∧ promise c' = Some 2).
Proof.
  destruct C6_cache_record_invariant as [Hnew Hrun]. split.
  - eexists _, _. split; [reflexivity|].
    eapply (Hnew (boot env_local)); reflexivity.
  - intros evs' w' Hex.
    destruct (Hrun env_local trace_joined w_joined 0
                {| conn := None; promise := Some 2 |}) as [_ Hlater].
    + vm_compute. reflexivity.
    + reflexivity.
    + reflexivity.
    + destruct (Hlater evs' w' Hex) as (c' & _ & Hc' & _ & Hp).
      exists c'. split; [exact Hc'|]. apply Hp. reflexivity.
Defined.

Lemma C7_witness :
  ∃ m w1, module_init w_connected = inr (m, w1) ∧ cached m = 0 ∧
          caches w1 = caches w_connected ∧
          ∃ q w2, connectToDatabase m w1 = Some (q, w2) ∧
                  promises w2 !! q = Some (Fulfilled the_handle) ∧
                  connects w2 = connects w_connected.
Proof.
  destruct (C7_reload_reuses_global_cache w_connected 0
              {| conn := Some the_handle; promise := Some 2 |})
    as (m & w1 & Hm & Hr & _ & Hcs & _ & _ & q & w2 & Hcall & Hconn & _).
  - reflexivity.
  - reflexivity.
  - vm_compute. reflexivity.
  - exists m, w1. do 3 (split; [assumption|]). exists q, w2.
    split; [assumption|]. apply Hconn. reflexivity.
Defined.

Lemma C8_witness :
  ∃ v w', getMongoNativeConnection m0 w_connected = Some (v, w') ∧
          caches w' !! 0 = Some {| conn := Some the_handle; promise := Some 2 |} ∧
          promises w' = promises w_connected.
Proof.
  destruct (C8_native_connection_pure m0 w_connected) as [_ H].
  destruct (H {| conn := Some the_handle; promise := Some 2 |})
    as (v & w' & Hrun & Hc & Hp & _).
  - reflexivity.
  - exists v, w'. repeat split; assumption.
Defined.


(** ** The shape is kept by every step *)

Section Shape.

Implicit Types (w : World) (m : Module) (c : MongooseCache) (r : cref) (p q : pid).

Lemma Inv_cache w r c :
  Inv w → global_mongoose w = Some r → caches w !! r = Some c → CacheInv w r c.
Proof.
  intros HI Hg Hc. destruct (inv_some _ HI r Hg) as (c0 & Hc0 & Hci). congruence.
Qed.

Lemma Inv_attempt w r c p1 :
  Inv w → global_mongoose w = Some r → caches w !! r = Some c →
  promise c = Some p1 → ∃ p0, Attempt w r c p0 p1.
Proof.
  intros HI Hg Hc Hp. pose proof (Inv_cache _ _ _ HI Hg Hc) as Hci.
  unfold CacheInv in Hci. by rewrite Hp in Hci.
Qed.

Lemma Inv_not_fresh w :
  Inv w → ¬ Fresh w →
  ∃ r c p0 p1, global_mongoose w = Some r ∧ caches w !! r = Some c ∧
               promise c = Some p1 ∧ Attempt w r c p0 p1.
Proof.
  intros HI Hnf. destruct (global_mongoose w) as [r|] eqn:Hg.
  - destruct (inv_some _ HI r Hg) as (c & Hc & Hci). unfold CacheInv in Hci.
    destruct (promise c) as [p1|] eqn:Hp1.
    + destruct Hci as [p0 HA]. by exists r, c, p0, p1.
    + by destruct Hci as [_ ?].
  - by destruct (inv_none _ HI Hg) as (_ & _ & ?).
Qed.

Lemma Inv_attempt_of_reaction w i rx :
  Inv w → reactions w !! i = Some rx →
  ∃ r c p0 p1, global_mongoose w = Some r ∧ caches w !! r = Some c ∧
               promise c = Some p1 ∧ Attempt w r c p0 p1.
Proof.
  intros HI Hi. apply Inv_not_fresh; [done|].
  intros (_ & Hr & _). by rewrite Hr in Hi.
Qed.

Lemma Inv_attempt_of_connect w p :
  Inv w → p ∈ (connects w).*2 →
  ∃ r c p1, global_mongoose w = Some r ∧ caches w !! r = Some c ∧
            promise c = Some p1 ∧ Attempt w r c p p1.
Proof.
  intros HI Hp. destruct (Inv_not_fresh w HI) as (r & c & p0 & p1 & Hg & Hc & Hp1 & HA).
  - intros Hf. by destruct (not_Fresh_connects _ _ Hf Hp).
  - destruct (att_log _ _ _ _ _ HA) as [u Hlog]. rewrite Hlog in Hp.
    apply list_elem_of_singleton in Hp. simpl in Hp. subst p0. by exists r, c, p1.
Qed.

Lemma caches_step w ev w' :
  Inv w → Step w ev w' → length (caches w) ≤ 1 → length (caches w') ≤ 1.
Proof.
  intros HI HS Hl. destruct HS; simpl; rewrite ?length_insert; try done.
  destruct (inv_none _ HI H0) as (-> & _). simpl. lia.
Qed.

Lemma modules_step w ev w' m :
  Step w ev w' → m ∈ modules w' →
  m ∈ modules w ∨ (MONGODB_URI m = uri_of w ∧ truthy (uri_of w) = true).
Proof.
  intros HS. destruct HS; simpl; auto;
    (intros [?|Hm%list_elem_of_singleton]%elem_of_app; [by left|subst; by right]).
Qed.

Lemma connects_step w ev w' u p :
  Step w ev w' → (u, p) ∈ connects w' →
  (u, p) ∈ connects w ∨ ∃ m, m ∈ modules w ∧ u = MONGODB_URI m.
Proof.
  intros HS. destruct HS; simpl; auto.
  intros [?|Heq%list_elem_of_singleton]%elem_of_app; [by left|right].
  exists m. split; [by eapply list_elem_of_lookup_2|congruence].
Qed.

Lemma lazy_step w ev w' :
  Step w ev w' → (connects w ≠ [] → calls w ≠ []) →
  connects w' ≠ [] → calls w' ≠ [].
Proof.
  intros HS IH. destruct HS; simpl; auto; intros _ Habs;
    by apply app_eq_nil in Habs as [_ ?].
Qed.

Lemma lookup_insert_Fulfilled (ps : list PromiseState) q q' st h :
  <[q := st]> ps !! q' = Some (Fulfilled h) →
  (q' = q ∧ st = Fulfilled h) ∨ (q' ≠ q ∧ ps !! q' = Some (Fulfilled h)).
Proof.
  intros H. destruct (decide (q' = q)) as [->|Hne].
  - left. split; [done|].
    destruct (decide (q < length ps)) as [Hlt|Hge].
    + rewrite list_lookup_insert_eq in H by done. congruence.
    + rewrite list_insert_ge in H by lia.
      apply lookup_lt_Some in H. lia.
  - right. by rewrite list_lookup_insert_ne in H.
Qed.

(** A caller that holds a handle implies a populated [cached.conn]. *)
Lemma conn_step w ev w' :
  Inv w → Step w ev w' →
  (∀ r c q h, global_mongoose w = Some r → caches w !! r = Some c →
     q ∈ calls w → promises w !! q = Some (Fulfilled h) → conn c = Some h) →
  ∀ r c q h, global_mongoose w' = Some r → caches w' !! r = Some c →
    q ∈ calls w' → promises w' !! q = Some (Fulfilled h) → conn c = Some h.
Proof.
  intros HI HS IH r' c' q' h' Hg Hc Hq Hqh.
  destruct HS as [ Ht | Ht Hg0 | r0 Ht Hg0 | i m c0 h Hm Hc0 Hh
                 | i m c0 p Hm Hc0 Hh Hp | i m c0 Hm Hc0 Hh Hp | i m c0 Hm Hc0
                 | p h Hin Hp | p e Hin Hp | i src dst st Hi Hsrc Hst Hdst
                 | i src r0 q v c0 Hi Hsrc Hc0 Hq0 | i src r0 q e Hi Hsrc Hq0 ];
    simpl in *.
  - eauto.
  - destruct (inv_none _ HI Hg0) as (_ & _ & _ & _ & _ & Hcl).
    rewrite Hcl in Hq. inversion Hq.
  - simplify_eq. eauto.
  - pose proof (inv_modules _ HI m (list_elem_of_lookup_2 _ _ _ Hm)) as Hgm.
    apply elem_of_app in Hq as [Hq|Hq].
    + destruct (Inv_attempt_of_call _ _ HI Hq) as (r1 & c1 & p0 & p1 & _ & _ & _ & HA).
      rewrite lookup_snoc_old in Hqh by (by eapply Attempt_call). eauto.
    + apply list_elem_of_singleton in Hq. subst q'.
      rewrite snoc_lookup_new in Hqh. congruence.
  - apply elem_of_app in Hq as [Hq|Hq].
    + destruct (Inv_attempt_of_call _ _ HI Hq) as (r1 & c1 & p0 & p1 & _ & _ & _ & HA).
      rewrite lookup_snoc_old in Hqh by (by eapply Attempt_call). eauto.
    + apply list_elem_of_singleton in Hq. subst q'.
      by rewrite snoc_lookup_new in Hqh.
  - pose proof (inv_modules _ HI m (list_elem_of_lookup_2 _ _ _ Hm)) as Hgm.
    pose proof (Inv_cache _ _ _ HI Hgm Hc0) as Hci. unfold CacheInv in Hci.
    rewrite Hp in Hci. destruct Hci as (_ & Hps & _ & _ & Hcl).
    rewrite Hcl, Hps in Hq. rewrite Hps in Hqh. simpl in Hq, Hqh.
    apply list_elem_of_singleton in Hq. by subst q'.
  - eauto.
  - destruct (Inv_attempt_of_connect _ _ HI Hin) as (r1 & c1 & p1 & _ & _ & _ & HA).
    destruct (att_calls _ _ _ _ _ HA q' Hq) as (Hne & _).
    rewrite list_lookup_insert_ne in Hqh by done. eauto.
  - destruct (Inv_attempt_of_connect _ _ HI Hin) as (r1 & c1 & p1 & _ & _ & _ & HA).
    destruct (att_calls _ _ _ _ _ HA q' Hq) as (Hne & _).
    rewrite list_lookup_insert_ne in Hqh by done. eauto.
  - destruct (Inv_attempt_of_reaction _ _ _ HI Hi) as (r1 & c1 & p0 & p1 & _ & _ & _ & HA).
    destruct (att_rx _ _ _ _ _ HA _ (list_elem_of_lookup_2 _ _ _ Hi))
      as [?|(? & ? & _)]; simplify_eq.
    destruct (att_calls _ _ _ _ _ HA q' Hq) as (_ & Hne & _).
    rewrite list_lookup_insert_ne in Hqh by done. eauto.
  - destruct (Inv_attempt_of_reaction _ _ _ HI Hi)
      as (r1 & c1 & p0 & p1 & Hg1 & _ & _ & HA).
    destruct (att_rx _ _ _ _ _ HA _ (list_elem_of_lookup_2 _ _ _ Hi))
      as [?|(? & ? & _)]; simplify_eq.
    rewrite list_lookup_insert_eq in Hc by (by eapply lookup_lt_Some).
    simplify_eq. simpl.
    apply lookup_insert_Fulfilled in Hqh as [[_ ?]|[_ Hqh]]; [congruence|].
    destruct (Attempt_settled_call _ _ _ _ _ _ _ HA Hq Hqh) as [_ ?]; [done|].
    congruence.
  - apply lookup_insert_Fulfilled in Hqh as [[_ ?]|[_ Hqh]]; [done|]. eauto.
Qed.

Lemma NoDup_delete_notin {A} (l : list A) i x :
  NoDup l → l !! i = Some x → x ∉ delete i l.
Proof.
  intros Hnd Hi. rewrite (delete_Permutation l i x Hi) in Hnd.
  by apply NoDup_cons in Hnd as [? _].
Qed.

Lemma NoDup_delete {A} (l : list A) i : NoDup l → NoDup (delete i l).
Proof. intros Hnd. eapply sublist_NoDup; [done|apply sublist_delete]. Qed.

(** The callers in the queue are callers. *)
Lemma frames_are_calls w r c p0 p1 qs q :
  Attempt w r c p0 p1 →
  (reactions w = ThenReturn p0 p1 :: (AwaitFrame p1 r <$> qs) ∨
   reactions w = AwaitFrame p1 r <$> qs) →
  q ∈ qs → q ∈ calls w ∧ q ≠ p0 ∧ q ≠ p1.
Proof.
  intros HA Hrs Hq.
  assert (AwaitFrame p1 r q ∈ reactions w) as Hin.
  { destruct Hrs as [-> | ->]; [apply elem_of_cons; right|];
      by apply list_elem_of_fmap_2. }
  destruct (att_rx _ _ _ _ _ HA _ Hin) as [?|(q' & ? & Hc)]; simplify_eq.
  split; [done|]. by destruct (att_calls _ _ _ _ _ HA _ Hc) as (? & ? & _).
Qed.

Lemma Queue_rs w r p0 p1 qs :
  (promises w !! p1 = Some Pending ∧
   reactions w = ThenReturn p0 p1 :: (AwaitFrame p1 r <$> qs)) ∨
  (promises w !! p1 ≠ Some Pending ∧ reactions w = AwaitFrame p1 r <$> qs) →
  reactions w = ThenReturn p0 p1 :: (AwaitFrame p1 r <$> qs) ∨
  reactions w = AwaitFrame p1 r <$> qs.
Proof. intros [[_ ?]|[_ ?]]; auto. Qed.

(** Settling a promise that is neither [p1] nor a queued caller. *)
Lemma Queue_settle_other w r c p0 p1 p st :
  Attempt w r c p0 p1 → Queue w r p0 p1 → p ≠ p1 →
  (∀ q, q ∈ calls w → q ≠ p) →
  Queue (with_promises (<[p := st]> (promises w)) w) r p0 p1.
Proof.
  intros HA (qs & Hnd & Hpend & Hrs) Hne Hcalls. exists qs. split; [done|]. split.
  - intros q Hq. simpl.
    destruct (frames_are_calls _ _ _ _ _ _ _ HA (Queue_rs _ _ _ _ _ Hrs) Hq) as (Hc & _).
    rewrite list_lookup_insert_ne by (apply not_eq_sym; by apply Hcalls). by apply Hpend.
  - simpl. by rewrite list_lookup_insert_ne.
Qed.

(** Resuming the frame at [i]: its caller is settled and leaves the queue. *)
Lemma Queue_resume w r c p0 p1 i src r0 q st cs :
  Attempt w r c p0 p1 → Queue w r p0 p1 →
  reactions w !! i = Some (AwaitFrame src r0 q) →
  promises w !! src = Some st → st ≠ Pending →
  Queue (with_promises (<[q := st]> (promises w))
           (with_caches cs (with_reactions (delete i (reactions w)) w))) r p0 p1.
Proof.
  intros HA (qs & Hnd & Hpend & Hrs) Hi Hsrc Hst.
  destruct (att_rx _ _ _ _ _ HA _ (list_elem_of_lookup_2 _ _ _ Hi))
    as [?|(q' & Heq & Hqc)]; [done|].
  injection Heq as ? ? ?. subst src r0 q'.
  destruct (att_calls _ _ _ _ _ HA _ Hqc) as (_ & Hq1 & _).
  destruct Hrs as [[Hp1 _]|[Hp1 Hrs]]; [congruence|].
  assert (qs !! i = Some q) as Hqi.
  { rewrite Hrs, list_lookup_fmap in Hi.
    destruct (qs !! i); simpl in Hi; by simplify_eq. }
  exists (delete i qs). split; [by apply NoDup_delete|]. split.
  - intros q' Hq'. simpl.
    assert (q' ≠ q) as Hne.
    { intros ->. by eapply NoDup_delete_notin. }
    rewrite list_lookup_insert_ne by done.
    by apply Hpend, (list_elem_of_delete_inv _ i).
  - right. simpl. rewrite list_lookup_insert_ne by done.
    split; [done|]. by rewrite Hrs, list_fmap_delete.
Qed.

Lemma queue_step w ev w' :
  Inv w → Step w ev w' →
  (∀ r c u p0 p1, global_mongoose w = Some r → caches w !! r = Some c →
     promise c = Some p1 → connects w = [(u, p0)] → Queue w r p0 p1) →
  ∀ r c u p0 p1, global_mongoose w' = Some r → caches w' !! r = Some c →
    promise c = Some p1 → connects w' = [(u, p0)] → Queue w' r p0 p1.
Proof.
  intros HI HS IH r' c' u' p0' p1' Hg Hc Hpr Hcn.
  destruct HS as [ Ht | Ht Hg0 | r0 Ht Hg0 | i m c0 h Hm Hc0 Hh
                 | i m c0 p Hm Hc0 Hh Hp | i m c0 Hm Hc0 Hh Hp | i m c0 Hm Hc0
                 | p h Hin Hp | p e Hin Hp | i src dst st Hi Hsrc Hst Hdst
                 | i src r0 q v c0 Hi Hsrc Hc0 Hq0 | i src r0 q e Hi Hsrc Hq0 ];
    simpl in *.
  - eauto.
  - destruct (inv_none _ HI Hg0) as (_ & _ & _ & _ & Hcn0 & _). congruence.
  - simplify_eq. eauto.
  - destruct (Inv_attempt _ _ _ _ HI Hg Hc Hpr) as [p0 HA].
    destruct (IH _ _ _ _ _ Hg Hc Hpr Hcn) as (qs & Hnd & Hpend & Hrs).
    exists qs. split; [done|]. simpl. split.
    + intros q Hq. by apply lookup_app_l_Some, Hpend.
    + by rewrite lookup_snoc_old by (by eapply Attempt_p1).
  - pose proof (inv_modules _ HI m (list_elem_of_lookup_2 _ _ _ Hm)) as Hgm.
    assert (cached m = r') as Hr by congruence. rewrite Hr in *.
    assert (c0 = c') as -> by congruence. assert (p = p1') as -> by congruence.
    destruct (Inv_attempt _ _ _ _ HI Hg Hc Hpr) as [p0 HA].
    destruct (IH _ _ _ _ _ Hg Hc Hpr Hcn) as (qs & Hnd & Hpend & Hrs).
    exists (qs ++ [length (promises w)]). split; [|split].
    + apply NoDup_app. split; [done|]. split; [|apply NoDup_singleton].
      intros q Hq ->%list_elem_of_singleton.
      apply Hpend, lookup_lt_Some in Hq. lia.
    + simpl. intros q [Hq|Hq%list_elem_of_singleton]%elem_of_app.
      * by apply lookup_app_l_Some, Hpend.
      * subst q. apply snoc_lookup_new.
    + simpl. rewrite lookup_snoc_old by (by eapply Attempt_p1).
      rewrite fmap_app. simpl.
      destruct Hrs as [[? ->]|[? ->]]; [by left|by right].
  - pose proof (inv_modules _ HI m (list_elem_of_lookup_2 _ _ _ Hm)) as Hgm.
    assert (cached m = r') as Hr by congruence. rewrite Hr in *.
    pose proof (Inv_cache _ _ _ HI Hgm Hc0) as Hci. unfold CacheInv in Hci.
    rewrite Hp in Hci. destruct Hci as (_ & Hps & Hrs & Hcn0 & Hcl).
    rewrite list_lookup_insert_eq in Hc by (by eapply lookup_lt_Some).
    injection Hc as <-. simpl in Hpr. injection Hpr as <-.
    rewrite Hcn0 in Hcn. simpl in Hcn. injection Hcn as <- <-.
    rewrite Hps, Hrs. simpl.
    exists [0]. split; [apply NoDup_singleton|]. split.
    + by intros q ->%list_elem_of_singleton.
    + by left.
  - eauto.
  - destruct (Inv_attempt_of_connect _ _ HI Hin) as (r1 & c1 & p1 & Hg1 & Hc1 & Hp1 & HA).
    assert (r1 = r') as -> by congruence. assert (c1 = c') as -> by congruence.
    assert (p1 = p1') as -> by congruence.
    assert (p0' = p) as ->.
    { destruct (att_log _ _ _ _ _ HA) as [u0 Hl]. congruence. }
    apply (Queue_settle_other _ _ c'); [done|by eapply IH|apply (att_ne _ _ _ _ _ HA)|].
    intros q Hq. by destruct (att_calls _ _ _ _ _ HA q Hq).
  - destruct (Inv_attempt_of_connect _ _ HI Hin) as (r1 & c1 & p1 & Hg1 & Hc1 & Hp1 & HA).
    assert (r1 = r') as -> by congruence. assert (c1 = c') as -> by congruence.
    assert (p1 = p1') as -> by congruence.
    assert (p0' = p) as ->.
    { destruct (att_log _ _ _ _ _ HA) as [u0 Hl]. congruence. }
    apply (Queue_settle_other _ _ c'); [done|by eapply IH|apply (att_ne _ _ _ _ _ HA)|].
    intros q Hq. by destruct (att_calls _ _ _ _ _ HA q Hq).
  - destruct (Inv_attempt_of_reaction _ _ _ HI Hi)
      as (r1 & c1 & p0 & p1 & Hg1 & Hc1 & Hp1 & HA).
    assert (r1 = r') as -> by congruence. assert (c1 = c') as -> by congruence.
    assert (p1 = p1') as -> by congruence.
    assert (p0 = p0') as ->.
    { destruct (att_log _ _ _ _ _ HA) as [u0 Hl]. congruence. }
    destruct (IH _ _ _ _ _ Hg Hc Hpr Hcn) as (qs & Hnd & Hpend & Hrs).
    assert (i = 0 ∧ src = p0' ∧ dst = p1' ∧ promises w !! p1' = Some Pending ∧
            reactions w = ThenReturn p0' p1' :: (AwaitFrame p1' r' <$> qs))
      as (-> & -> & -> & Hpp & Hrw).
    { destruct Hrs as [[Hpp Hrw]|[_ Hrw]]; rewrite Hrw in Hi.
      - destruct i as [|j]; simpl in Hi; [by simplify_eq|].
        rewrite list_lookup_fmap in Hi. destruct (qs !! j); simpl in Hi; by simplify_eq.
      - rewrite list_lookup_fmap in Hi. destruct (qs !! i); simpl in Hi; by simplify_eq. }
    exists qs. split; [done|]. simpl. split.
    + intros q Hq.
      destruct (frames_are_calls _ _ _ _ _ _ _ HA (Queue_rs _ _ _ _ _ Hrs) Hq)
        as (_ & _ & Hne).
      rewrite list_lookup_insert_ne by done. by apply Hpend.
    + right. rewrite list_lookup_insert_eq by (by eapply lookup_lt_Some).
      rewrite Hrw. simpl. split; [congruence|done].
  - destruct (Inv_attempt_of_reaction _ _ _ HI Hi)
      as (r1 & c1 & p0 & p1 & Hg1 & Hc1 & Hp1 & HA).
    assert (r1 = r') as -> by congruence.
    destruct (att_rx _ _ _ _ _ HA _ (list_elem_of_lookup_2 _ _ _ Hi))
      as [?|(? & ? & _)]; simplify_eq.
    rewrite list_lookup_insert_eq in Hc by (by eapply lookup_lt_Some).
    simplify_eq. simpl in Hpr.
    assert (p0 = p0') as ->.
    { destruct (att_log _ _ _ _ _ HA) as [u0 Hl]. congruence. }
    assert (p1 = p1') as -> by congruence.
    eapply (Queue_resume w _ c0); eauto.
  - destruct (Inv_attempt_of_reaction _ _ _ HI Hi)
      as (r1 & c1 & p0 & p1 & Hg1 & Hc1 & Hp1 & HA).
    assert (r1 = r') as -> by congruence. assert (c1 = c') as -> by congruence.
    assert (p1 = p1') as -> by congruence.
    assert (p0 = p0') as ->.
    { destruct (att_log _ _ _ _ _ HA) as [u0 Hl]. congruence. }
    pose proof (Queue_resume w r' c' p0' p1' i src r0 q (Rejected e) (caches w)
                  HA (IH _ _ _ _ _ Hg Hc Hpr Hcn) Hi Hsrc ltac:(done)) as HQ.
    destruct HQ as (qs & ? & ? & ?). by exists qs.
Qed.

Lemma Shape_boot e : Shape (boot e).
Proof.
  split; simpl; try done.
  - lia.
  - intros m Hm. inversion Hm.
  - intros u p Hp. inversion Hp.
Qed.

Lemma Shape_Step w ev w' : Inv w → Shape w → Step w ev w' → Shape w'.
Proof.
  intros HI HS Hst. split.
  - by apply (caches_step w ev), (sh_caches _ HS).
  - intros m Hm.
    destruct (modules_step _ _ _ _ Hst Hm) as [Hold|[Hu Ht]].
    + by apply (sh_modules _ HS).
    + by rewrite Hu.
  - intros u p Hp. pose proof (Step_Extends _ _ _ HI Hst) as HE.
    destruct (connects_step _ _ _ _ _ Hst Hp) as [Hold|(m & Hm & ->)].
    + destruct (sh_connects _ HS u p Hold) as (m & Hm & ->).
      exists m. split; [by apply (ext_modules _ _ HE)|done].
    + exists m. split; [by apply (ext_modules _ _ HE)|done].
  - by apply (lazy_step w ev), (sh_lazy _ HS).
  - by apply (conn_step w ev), (sh_conn _ HS).
  - by apply (queue_step w ev), (sh_queue _ HS).
Qed.

Lemma Shape_exec evs w w' : Inv w → Shape w → exec evs w = Some w' → Shape w'.
Proof.
  revert w. induction evs as [|ev evs IH]; intros w HI HS; simpl.
  - by intros [= <-].
  - destruct (step ev w) as [w1|] eqn:Hs; [|done].
    apply IH; [by eapply Inv_step|]. by apply (Shape_Step w ev), step_Step.
Qed.

Lemma Shape_reachable e evs w : exec evs (boot e) = Some w → Shape w.
Proof. apply Shape_exec; [apply Inv_boot|apply Shape_boot]. Qed.

Lemma truthy_Some v : truthy v = true → ∃ s, v = Some s ∧ s ≠ EmptyString.
Proof.
  destruct v as [s|]; simpl; [|done]. intros Hs. exists s. split; [done|].
  intros ->. by simpl in Hs.
Qed.

(** With the handshake settled the oldest reaction can always run. *)
Lemma tick0_enabled w u p0 st :
  Inv w → Shape w → connects w = [(u, p0)] →
  promises w !! p0 = Some st → st ≠ Pending → reactions w ≠ [] →
  ∃ w1, step (Tick 0) w = Some w1 ∧ calls w1 = calls w ∧
        modules w1 = modules w ∧ reactions w1 = delete 0 (reactions w).
Proof.
  intros HI HS Hcn Hp0 Hst Hne.
  destruct (Inv_not_fresh w HI) as (r & c & p0' & p1 & Hg & Hc & Hp1 & HA).
  { intros (_ & _ & Hcn0 & _). congruence. }
  assert (p0' = p0) as ->.
  { destruct (att_log _ _ _ _ _ HA) as [u0 Hl]. congruence. }
  destruct (sh_queue _ HS _ _ _ _ _ Hg Hc Hp1 Hcn) as (qs & Hnd & Hpend & Hrs).
  destruct Hrs as [[Hpp Hrw]|[Hpp Hrw]].
  - eexists. split.
    + apply step_Step. eapply (step_tick_then w 0 p0 p1 st); [by rewrite Hrw|done..].
    + done.
  - destruct qs as [|q qs]; [by rewrite Hrw in Hne|].
    assert (promises w !! p1 = Some st) as Hp1st.
    { destruct (att_then _ _ _ _ _ HA) as [[? _]|[_ ?]]; congruence. }
    assert (promises w !! q = Some Pending) as Hq by (apply Hpend; by left).
    destruct st as [|v|err]; [done| |].
    + eexists. split.
      * apply step_Step.
        eapply (step_tick_fulfilled w 0 p1 r q v c); [by rewrite Hrw|done..].
      * done.
    + eexists. split.
      * apply step_Step.
        eapply (step_tick_rejected w 0 p1 r q err); [by rewrite Hrw|done..].
      * done.
Qed.

Lemma drain_steps n w u p0 st :
  Inv w → Shape w → connects w = [(u, p0)] →
  promises w !! p0 = Some st → st ≠ Pending → length (reactions w) = n →
  ∃ w', exec (replicate n (Tick 0)) w = Some w' ∧ Inv w' ∧ Shape w' ∧
        reactions w' = [] ∧ calls w' = calls w ∧ modules w' = modules w ∧
        connects w' = connects w ∧ promises w' !! p0 = Some st.
Proof.
  revert w. induction n as [|n IH]; intros w HI HS Hcn Hp0 Hst Hlen.
  - exists w. simpl. apply nil_length_inv in Hlen. done.
  - destruct (tick0_enabled w u p0 st) as (w1 & Hstep & Hcl & Hms & Hrs); try done.
    { intros Hnil. by rewrite Hnil in Hlen. }
    pose proof (Inv_step _ _ _ HI Hstep) as HI1.
    pose proof (Shape_Step _ _ _ HI HS (step_sound _ _ _ Hstep)) as HS1.
    pose proof (Step_Extends _ _ _ HI (step_sound _ _ _ Hstep)) as HE.
    assert (connects w1 = connects w) as Hcn1.
    { apply (ext_connects _ _ HE). by rewrite Hcn. }
    destruct (IH w1) as (w' & Hex & ? & ? & ? & Hcl' & Hms' & Hcn' & ?); try done.
    + congruence.
    + by apply (ext_promises _ _ HE).
    + rewrite Hrs. destruct (reactions w); simpl in *; [done|lia].
    + exists w'.
      change (exec (replicate (S n) (Tick 0)) w)
        with (match step (Tick 0) w with
              | Some w2 => exec (replicate n (Tick 0)) w2
              | None => None
              end).
      rewrite Hstep. do 4 (split; [done|]).
      repeat split; congruence.
Qed.

(** A frame in the queue belongs to a caller that is still pending. *)
Lemma frame_pending w j src r q :
  Inv w → Shape w → reactions w !! j = Some (AwaitFrame src r q) →
  promises w !! q = Some Pending.
Proof.
  intros HI HS Hj.
  destruct (Inv_attempt_of_reaction _ _ _ HI Hj) as (r1 & c & p0 & p1 & Hg & Hc & Hp & HA).
  destruct (att_log _ _ _ _ _ HA) as [u Hl].
  destruct (sh_queue _ HS _ _ _ _ _ Hg Hc Hp Hl) as (qs & _ & Hpend & Hrs).
  apply Hpend.
  assert ((AwaitFrame p1 r1 <$> qs) !! j = Some (AwaitFrame src r q) ∨
          ∃ j', (AwaitFrame p1 r1 <$> qs) !! j' = Some (AwaitFrame src r q)) as Hin.
  { destruct Hrs as [[_ Hrw]|[_ Hrw]]; rewrite Hrw in Hj; [|by left].
    destruct j as [|j']; simpl in Hj; [done|]. right. by exists j'. }
  assert (∃ j', (AwaitFrame p1 r1 <$> qs) !! j' = Some (AwaitFrame src r q)) as [j' Hj'].
  { destruct Hin as [?|?]; eauto. }
  rewrite list_lookup_fmap in Hj'.
  destruct (qs !! j') as [q'|] eqn:Hq'; simpl in Hj'; [|done].
  injection Hj' as _ _ <-. by eapply list_elem_of_lookup_2.
Qed.

(** With the queue empty every caller has the state of the handshake. *)
Lemma drained_callers w u p0 st q :
  Inv w → reactions w = [] → connects w = [(u, p0)] →
  promises w !! p0 = Some st → q ∈ calls w → promises w !! q = Some st.
Proof.
  intros HI Hrs Hcn Hp0 Hq.
  destruct (Inv_attempt_of_call w q HI Hq) as (r & c & a0 & p1 & _ & _ & _ & HA).
  assert (a0 = p0) as ->.
  { destruct (att_log _ _ _ _ _ HA) as [u0 Hl]. congruence. }
  assert (promises w !! p1 = Some st) as Hp1.
  { destruct (att_then _ _ _ _ _ HA) as [[_ Hin]|[_ ?]]; [|congruence].
    rewrite Hrs in Hin. inversion Hin. }
  destruct (att_calls _ _ _ _ _ HA q Hq) as (_ & _ & [[_ Hin]|[_ ?]]); [|congruence].
  rewrite Hrs in Hin. inversion Hin.
Qed.

(** The environment plays no part in the invariants. *)
Lemma Attempt_with_env e w r c p0 p1 :
  Attempt w r c p0 p1 → Attempt (with_env e w) r c p0 p1.
Proof. intros [? ? ? ? ? ? ?]. by split. Qed.

Lemma Inv_with_env e w : Inv w → Inv (with_env e w).
Proof.
  intros [Hm Hn Hs]. split; simpl; [done|done|].
  intros r Hg. destruct (Hs r Hg) as (c & Hc & Hci). exists c. split; [done|].
  unfold CacheInv in *. destruct (promise c); [|done].
  destruct Hci as [p0 HA]. exists p0. by apply Attempt_with_env.
Qed.

Lemma Shape_with_env e w : Shape w → Shape (with_env e w).
Proof. intros [? ? ? ? ? ?]. by split. Qed.

Lemma Inv_Shape_step_env pe w w' :
  Inv w → Shape w → step_env pe w = Some w' → Inv w' ∧ Shape w'.
Proof.
  intros HI HS. destruct pe as [ev|k v|k]; simpl.
  - intros Hs. split; [by eapply Inv_step|].
    by apply (Shape_Step w ev), step_Step.
  - intros [= <-]. split; [by apply Inv_with_env|by apply Shape_with_env].
  - intros [= <-]. split; [by apply Inv_with_env|by apply Shape_with_env].
Qed.

Lemma Inv_Shape_exec_env pes w w' :
  Inv w → Shape w → exec_env pes w = Some w' → Inv w' ∧ Shape w'.
Proof.
  revert w. induction pes as [|pe pes IH]; intros w HI HS; simpl.
  - by intros [= <-].
  - destruct (step_env pe w) as [w1|] eqn:Hs; [|done].
    destruct (Inv_Shape_step_env _ _ _ HI HS Hs). by apply IH.
Qed.

Lemma Inv_Shape_reachable_env e pes w :
  exec_env pes (boot e) = Some w → Inv w ∧ Shape w.
Proof. apply Inv_Shape_exec_env; [apply Inv_boot|apply Shape_boot]. Qed.

End Shape.

(** ** A call that fails *)

Section Rejection.

Implicit Types (w : World) (m : Module) (c : MongooseCache) (e : gmap string string).

(** The only step that changes the [conn] field of a record is the
    continuation of [connectToDatabase] resumed on a fulfilled promise. *)
Lemma conn_assigned_only_on_success w ev w' r c c' :
  Step w ev w' → caches w !! r = Some c → caches w' !! r = Some c' →
  conn c' ≠ conn c →
  ∃ j src q h, ev = Tick j ∧ reactions w !! j = Some (AwaitFrame src r q) ∧
               promises w !! src = Some (Fulfilled h) ∧ conn c' = Some h.
Proof.
  intros HS Hc Hc' Hne.
  destruct HS as [ Ht | Ht Hg0 | r0 Ht Hg0 | i m c0 h Hm Hc0 Hh
                 | i m c0 p Hm Hc0 Hh Hp | i m c0 Hm Hc0 Hh Hp | i m c0 Hm Hc0
                 | p h Hin Hp | p e Hin Hp | i src dst st Hi Hsrc Hst Hdst
                 | i src r0 q v c0 Hi Hsrc Hc0 Hq0 | i src r0 q e Hi Hsrc Hq0 ];
    simpl in Hc'; try congruence.
  - rewrite (lookup_app_l_Some _ _ _ _ Hc) in Hc'. congruence.
  - destruct (decide (r = cached m)) as [->|Hr].
    + rewrite list_lookup_insert_eq in Hc' by (by eapply lookup_lt_Some).
      injection Hc' as <-. simpl in Hne. congruence.
    + rewrite list_lookup_insert_ne in Hc' by done. congruence.
  - destruct (decide (r = r0)) as [->|Hr].
    + rewrite list_lookup_insert_eq in Hc' by (by eapply lookup_lt_Some).
      injection Hc' as <-. by exists i, src, q, v.
    + rewrite list_lookup_insert_ne in Hc' by done. congruence.
Qed.

(** What a call leaves behind when the record has no connection. *)
Lemma call_suspends i w w' :
  Inv w → step (CallConnect i) w = Some w' →
  ∃ m c, modules w !! i = Some m ∧ global_mongoose w = Some (cached m) ∧
         caches w !! cached m = Some c ∧
         calls w' = calls w ++ [length (promises w)] ∧
         (conn c = None →
          ∃ c1 p, caches w' !! cached m = Some c1 ∧ conn c1 = None ∧
                  promise c1 = Some p ∧
                  promises w' !! length (promises w) = Some Pending ∧
                  AwaitFrame p (cached m) (length (promises w)) ∈ reactions w').
Proof.
  intros HI HS%step_sound.
  inversion HS as [ | | | i' m c h Hm Hc Hh | i' m c p Hm Hc Hh Hp
                  | i' m c Hm Hc Hh Hp | | | | | | ]; subst;
    pose proof (inv_modules _ HI m (list_elem_of_lookup_2 _ _ _ Hm)) as Hg;
    exists m, c; do 4 (split; [done|]); simpl.
  - congruence.
  - intros _. exists c, p. do 3 (split; [done|]).
    split; [apply snoc_lookup_new|].
    apply elem_of_app. right. by apply list_elem_of_singleton.
  - intros _. eexists _, _. split.
    { apply list_lookup_insert_eq. by eapply lookup_lt_Some. }
    simpl. do 2 (split; [done|]). split.
    + rewrite lookup_app_r by lia. by rewrite Nat.sub_diag.
    + apply elem_of_app. right. apply elem_of_cons. right.
      by apply list_elem_of_singleton.
Qed.

(** A rejected handshake means an unpopulated [conn]. *)
Lemma rejected_conn_None w r c u p0 err :
  Inv w → global_mongoose w = Some r → caches w !! r = Some c →
  connects w = [(u, p0)] → promises w !! p0 = Some (Rejected err) →
  conn c = None.
Proof.
  intros HI Hg Hc Hcn Hp0. pose proof (Inv_cache _ _ _ HI Hg Hc) as Hci.
  unfold CacheInv in Hci. destruct (promise c) as [p1|]; [|by destruct Hci].
  destruct Hci as [a0 HA].
  assert (a0 = p0) as ->.
  { destruct (att_log _ _ _ _ _ HA) as [u0 Hl]. congruence. }
  by destruct (Attempt_poisoned _ _ _ _ _ _ HA Hp0).
Qed.

(** C9: [cached.conn] is assigned by one step only, the continuation at
    line 79 resumed on a fulfilled promise.  For a call of
    [connectToDatabase] made in a reachable state, with [q] the promise it
    returns and [c0] the record it finds: if [c0] has no connection the call
    suspends itself on [cached.promise] and leaves [conn] null; in every
    later state, resuming the frame of this call on a rejected promise
    rejects [q] with the same error and leaves the cache records as they
    are; once the driver has rejected the handshake, running the job queue
    does reject [q] with the driver's error; and whenever [q] is rejected,
    its error is the driver's and [cached.conn] is what it was before the
    call, namely null. *)
Theorem C9_rejection_leaves_conn :
  (∀ w ev w' r c c',
     step ev w = Some w' → caches w !! r = Some c → caches w' !! r = Some c' →
     conn c' ≠ conn c →
     ∃ j src q h, ev = Tick j ∧ reactions w !! j = Some (AwaitFrame src r q) ∧
                  promises w !! src = Some (Fulfilled h) ∧ conn c' = Some h) ∧
  (∀ e evs0 w0 i w1,
     exec evs0 (boot e) = Some w0 →
     step (CallConnect i) w0 = Some w1 →
     ∃ q r c0,
       calls w1 = calls w0 ++ [q] ∧
       global_mongoose w0 = Some r ∧ caches w0 !! r = Some c0 ∧
       (conn c0 = None →
        ∃ c1 p, caches w1 !! r = Some c1 ∧ conn c1 = None ∧ promise c1 = Some p ∧
                promises w1 !! q = Some Pending ∧
                AwaitFrame p r q ∈ reactions w1) ∧
       ∀ evs w2, exec evs w1 = Some w2 →
         (∀ j src err,
            reactions w2 !! j = Some (AwaitFrame src r q) →
            promises w2 !! src = Some (Rejected err) →
            ∃ w3, step (Tick j) w2 = Some w3 ∧ caches w3 = caches w2 ∧
                  promises w3 !! q = Some (Rejected err)) ∧
         (∀ u p0 err,
            connects w2 = [(u, p0)] → promises w2 !! p0 = Some (Rejected err) →
            ∃ w3 c3, exec (drain w2) w2 = Some w3 ∧
                     promises w3 !! q = Some (Rejected err) ∧
                     caches w3 !! r = Some c3 ∧
                     conn c3 = conn c0 ∧ conn c0 = None) ∧
         (∀ err,
            promises w2 !! q = Some (Rejected err) →
            ∃ c2 u p0, caches w2 !! r = Some c2 ∧
                       conn c2 = conn c0 ∧ conn c0 = None ∧
                       connects w2 = [(u, p0)] ∧
                       promises w2 !! p0 = Some (Rejected err))).
Proof.
  split.
  - intros w ev w' r c c' Hs. by apply conn_assigned_only_on_success, step_sound.
  - intros e evs0 w0 i w1 Hex0 Hstep.
    pose proof (Inv_reachable _ _ _ Hex0) as HI0.
    pose proof (Shape_reachable _ _ _ Hex0) as HS0.
    pose proof (Inv_step _ _ _ HI0 Hstep) as HI1.
    pose proof (Shape_Step _ _ _ HI0 HS0 (step_sound _ _ _ Hstep)) as HS1.
    pose proof (Step_Extends _ _ _ HI0 (step_sound _ _ _ Hstep)) as HE01.
    destruct (call_suspends i w0 w1 HI0 Hstep) as (m & c0 & Hm & Hg & Hc0 & Hcl & Hsusp).
    exists (length (promises w0)), (cached m), c0.
    do 4 (split; [done|]).
    intros evs w2 Hex.
    pose proof (Inv_exec _ _ _ HI1 Hex) as HI2.
    pose proof (Shape_exec _ _ _ HI1 HS1 Hex) as HS2.
    pose proof (Extends_trans _ _ _ HE01 (exec_Extends _ _ _ HI1 Hex)) as HE02.
    pose proof (ext_global _ _ HE02 _ Hg) as Hg2.
    assert (length (promises w0) ∈ calls w2) as Hq2.
    { apply (ext_calls _ _ (exec_Extends _ _ _ HI1 Hex)). rewrite Hcl.
      apply elem_of_app. right. by apply list_elem_of_singleton. }
    (* a later state with a rejected handshake has [conn] null, as [c0] had *)
    assert (∀ w3 u p0 err, Inv w3 → Extends w0 w3 →
              connects w3 = [(u, p0)] → promises w3 !! p0 = Some (Rejected err) →
              ∃ c3, caches w3 !! cached m = Some c3 ∧
                    conn c3 = conn c0 ∧ conn c0 = None) as Hback.
    { intros w3 u p0 err HI3 HE03 Hcn3 Hp03.
      destruct (ext_cache _ _ HE03 _ c0 Hg Hc0) as (c3 & Hc3 & _ & Hkeep).
      pose proof (rejected_conn_None w3 _ c3 u p0 err HI3
                    (ext_global _ _ HE03 _ Hg) Hc3 Hcn3 Hp03) as Hn3.
      exists c3. split; [done|].
      destruct (conn c0) as [h|] eqn:Hh0; [|by rewrite Hn3].
      rewrite (Hkeep h eq_refl) in Hn3. done. }
    split; [|split].
    + intros j src err Hj Hsrc.
      pose proof (frame_pending _ _ _ _ _ HI2 HS2 Hj) as Hpend.
      eexists. split.
      * apply step_Step. by eapply (step_tick_rejected w2).
      * simpl. split; [done|]. apply list_lookup_insert_eq. by eapply lookup_lt_Some.
    + intros u p0 err Hcn Hp0.
      destruct (drain_steps (length (reactions w2)) w2 u p0 (Rejected err))
        as (w3 & Hrun & HI3 & HS3 & Hrs & Hcl3 & _ & Hcn3 & Hp03); try done.
      pose proof (Extends_trans _ _ _ HE02 (exec_Extends _ _ _ HI2 Hrun)) as HE03.
      destruct (Hback w3 u p0 err HI3 HE03) as (c3 & Hc3 & Heq & Hn0);
        [congruence|done|].
      exists w3, c3. split; [done|]. split; [|done].
      apply (drained_callers w3 u p0); try done; congruence.
    + intros err Hqr.
      destruct (Inv_attempt_of_call w2 _ HI2 Hq2) as (r2 & c2 & p0 & p1 & _ & _ & _ & HA).
      destruct (Attempt_settled_call _ _ _ _ _ _ _ HA Hq2 Hqr) as [Hp0 _]; [done|].
      destruct (att_log _ _ _ _ _ HA) as [u Hl].
      destruct (Hback w2 u p0 err HI2 HE02 Hl Hp0) as (c3 & Hc3 & Heq & Hn0).
      by exists c3, u, p0.
Qed.

End Rejection.

(** ** Further properties of the process *)

Section Further.

Implicit Types (w : World) (m : Module) (c : MongooseCache) (e : gmap string string).

(** X1: the cast [MONGODB_URI as string] at line 73 is safe, also when
    other code reassigns or deletes entries of [process.env] at any moment.
    In every reachable state each invocation of [mongoose.connect] received
    a non-empty string, the [MONGODB_URI] that some module instance read at
    line 8, and every module instance holds a non-empty string. *)
Theorem connect_receives_nonempty_uri e pes w :
  exec_env pes (boot e) = Some w →
  (∀ u p, (u, p) ∈ connects w →
     ∃ s m, u = Some s ∧ s ≠ EmptyString ∧
            m ∈ modules w ∧ MONGODB_URI m = Some s) ∧
  (∀ m, m ∈ modules w → ∃ s, MONGODB_URI m = Some s ∧ s ≠ EmptyString).
Proof.
  intros Hex. destruct (Inv_Shape_reachable_env _ _ _ Hex) as [HI HS]. split.
  - intros u p Hp. destruct (sh_connects _ HS u p Hp) as (m & Hm & ->).
    destruct (truthy_Some _ (sh_modules _ HS m Hm)) as (s & Hs & Hne).
    by exists s, m.
  - intros m Hm. by apply truthy_Some, (sh_modules _ HS).
Qed.

(** X2: the process allocates at most one cache record and every
    evaluation of the module binds [cached] to it, also when [process.env]
    changes between evaluations: the [cached] of any module instance is
    the live record that [global.mongoose] refers to, so any two instances
    have the same [cached]. *)
Theorem one_record_shared_by_all_instances e pes w :
  exec_env pes (boot e) = Some w →
  length (caches w) ≤ 1 ∧
  (∀ m, m ∈ modules w →
     global_mongoose w = Some (cached m) ∧ is_Some (caches w !! cached m)) ∧
  (∀ m1 m2, m1 ∈ modules w → m2 ∈ modules w → cached m1 = cached m2).
Proof.
  intros Hex. destruct (Inv_Shape_reachable_env _ _ _ Hex) as [HI HS].
  split; [apply (sh_caches _ HS)|]. split.
  - intros m Hm. pose proof (inv_modules _ HI m Hm) as Hg. split; [done|].
    destruct (inv_some _ HI _ Hg) as (c & Hc & _). eauto.
  - intros m1 m2 H1 H2.
    pose proof (inv_modules _ HI _ H1) as Hg1.
    pose proof (inv_modules _ HI _ H2) as Hg2. congruence.
Qed.

(** X3: the connection is lazy.  As long as nobody has called
    [connectToDatabase], [mongoose.connect] has not been invoked, whatever
    was imported; once somebody has called, it has been invoked exactly
    once. *)
Theorem handshake_iff_called e evs w :
  exec evs (boot e) = Some w →
  (calls w = [] → connects w = []) ∧
  (calls w ≠ [] → length (connects w) = 1).
Proof.
  intros Hex. pose proof (Shape_reachable _ _ _ Hex) as HS.
  pose proof (Inv_reachable _ _ _ Hex) as HI. split.
  - intros Hcl. destruct (connects w) as [|x l] eqn:Hcn; [done|].
    destruct (sh_lazy _ HS); [by rewrite Hcn|done].
  - intros Hcl. destruct (calls w) as [|q l] eqn:Hq; [done|].
    destruct (Inv_attempt_of_call w q HI) as (r & c & p0 & p1 & _ & _ & _ & HA).
    { rewrite Hq. by left. }
    by destruct (att_log _ _ _ _ _ HA) as [u ->].
Qed.

(** X4: all callers get the same outcome.  In every reachable state two
    settled callers of [connectToDatabase] hold the same state, the same
    handle or the same error, and it is the state of the promise that
    [mongoose.connect] returned; so no caller is settled before the
    handshake is, and none is fulfilled while another is rejected. *)
Theorem callers_agree_on_outcome e evs w q1 q2 st1 st2 :
  exec evs (boot e) = Some w →
  q1 ∈ calls w → q2 ∈ calls w →
  promises w !! q1 = Some st1 → st1 ≠ Pending →
  promises w !! q2 = Some st2 → st2 ≠ Pending →
  st1 = st2 ∧
  ∃ u p0, connects w = [(u, p0)] ∧ promises w !! p0 = Some st1.
Proof.
  intros Hex Hq1 Hq2 H1 Hn1 H2 Hn2. pose proof (Inv_reachable _ _ _ Hex) as HI.
  destruct (Inv_attempt_of_call w q1 HI Hq1) as (r & c & p0 & p1 & _ & _ & _ & HA).
  destruct (Attempt_settled_call _ _ _ _ _ _ _ HA Hq1 H1 Hn1) as [Hp0 _].
  destruct (Attempt_settled_call _ _ _ _ _ _ _ HA Hq2 H2 Hn2) as [Hp0' _].
  split; [congruence|].
  destruct (att_log _ _ _ _ _ HA) as [u Hl]. by exists u, p0.
Qed.

(** X5: the two exported functions agree.  Through any module instance of
    a reachable state, [getMongoNativeConnection()] returns a connection
    exactly when some caller of [connectToDatabase] holds a handle, and it
    is the [connection] of that handle; and once a caller holds a handle
    the function returns its [connection] in every later state. *)
Theorem native_connection_iff_connected e evs w :
  exec evs (boot e) = Some w →
  (∀ m k, m ∈ modules w →
     getMongoNativeConnection m w = Some (Some k, w) ↔
     ∃ q h, q ∈ calls w ∧ promises w !! q = Some (Fulfilled h) ∧
            k = connection h) ∧
  (∀ q h evs' w' m, q ∈ calls w → promises w !! q = Some (Fulfilled h) →
     exec evs' w = Some w' → m ∈ modules w' →
     getMongoNativeConnection m w' = Some (Some (connection h), w')).
Proof.
  intros Hex. pose proof (Shape_reachable _ _ _ Hex) as HS.
  pose proof (Inv_reachable _ _ _ Hex) as HI.
  assert (∀ q h w' m, Inv w' → Extends w w' →
            q ∈ calls w → promises w !! q = Some (Fulfilled h) → m ∈ modules w' →
            getMongoNativeConnection m w' = Some (Some (connection h), w')) as Hlater.
  { intros q h w' m HI' HE Hq Hqh Hm.
    destruct (Inv_attempt_of_call w q HI Hq) as (r & c & p0 & p1 & Hg & Hc & _ & _).
    pose proof (sh_conn _ HS r c q h Hg Hc Hq Hqh) as Hh.
    destruct (ext_cache _ _ HE r c Hg Hc) as (c' & Hc' & _ & Hkeep).
    pose proof (inv_modules _ HI' m Hm) as Hgm.
    pose proof (ext_global _ _ HE r Hg) as Hg'.
    assert (cached m = r) as Hr by congruence.
    rewrite (getMongoNativeConnection_eq m w' c') by (by rewrite Hr).
    by rewrite (Hkeep h Hh). }
  split.
  - intros m k Hm. split.
    + intros Hrun. pose proof (inv_modules _ HI m Hm) as Hg.
      destruct (inv_some _ HI _ Hg) as (c & Hc & _).
      rewrite (getMongoNativeConnection_eq _ _ _ Hc) in Hrun.
      destruct (conn c) as [h|] eqn:Hh; [|done].
      destruct (conn_has_caller _ _ _ _ _ _ Hex Hg Hc Hh) as (q & Hq & Hqh).
      exists q, h. simpl in Hrun. split; [done|]. split; [done|]. congruence.
    + intros (q & h & Hq & Hqh & ->).
      by apply (Hlater q h w m HI (Extends_refl w)).
  - intros q h evs' w' m Hq Hqh Hex' Hm.
    apply (Hlater q h w' m);
      [apply (Inv_exec evs' w w' HI Hex')|apply (exec_Extends evs' w w' HI Hex')|done..].
Qed.

(** X6: nobody is left waiting.  In a reachable state in which the driver
    has settled the handshake promise, running the job queue to the end,
    oldest reaction first, never gets stuck; it empties the queue, starts
    no handshake, and leaves every caller settled with the state of the
    handshake promise.  If that is a handle, every module instance then
    returns its [connection] from [getMongoNativeConnection()]. *)
Theorem drain_settles_every_caller e evs w u p0 st :
  exec evs (boot e) = Some w →
  connects w = [(u, p0)] → promises w !! p0 = Some st → st ≠ Pending →
  ∃ w', exec (drain w) w = Some w' ∧
        reactions w' = [] ∧ calls w' = calls w ∧ connects w' = connects w ∧
        (∀ q, q ∈ calls w' → promises w' !! q = Some st) ∧
        (∀ h m, st = Fulfilled h → m ∈ modules w' →
           getMongoNativeConnection m w' = Some (Some (connection h), w')).
Proof.
  intros Hex Hcn Hp0 Hst.
  pose proof (Shape_reachable _ _ _ Hex) as HS.
  pose proof (Inv_reachable _ _ _ Hex) as HI.
  destruct (drain_steps (length (reactions w)) w u p0 st)
    as (w' & Hrun & HI' & HS' & Hrs & Hcl & Hms & Hcn' & Hp0'); try done.
  exists w'. split; [done|]. do 3 (split; [done|]).
  assert (∀ q, q ∈ calls w' → promises w' !! q = Some st) as Hall.
  { intros q Hq.
    destruct (Inv_attempt_of_call w' q HI' Hq) as (r & c & a0 & p1 & _ & _ & _ & HA).
    assert (a0 = p0) as ->.
    { destruct (att_log _ _ _ _ _ HA) as [u0 Hl]. congruence. }
    assert (promises w' !! p1 = Some st) as Hp1.
    { destruct (att_then _ _ _ _ _ HA) as [[_ Hin]|[_ ?]]; [|congruence].
      rewrite Hrs in Hin. inversion Hin. }
    destruct (att_calls _ _ _ _ _ HA q Hq) as (_ & _ & [[_ Hin]|[_ ?]]); [|congruence].
    rewrite Hrs in Hin. inversion Hin. }
  split; [done|].
  intros h m -> Hm.
  assert (∃ q, q ∈ calls w') as [q Hqin].
  { pose proof (sh_lazy _ HS') as Hlazy.
    destruct (calls w') as [|q l]; [|exists q; by left].
    destruct Hlazy; [by rewrite Hcn', Hcn|done]. }
  pose proof (Hall q Hqin) as Hqh.
  pose proof (inv_modules _ HI' m Hm) as Hg.
  destruct (inv_some _ HI' _ Hg) as (c & Hc & _).
  rewrite (getMongoNativeConnection_eq _ _ _ Hc).
  by rewrite (sh_conn _ HS' _ c q h Hg Hc Hqin Hqh).
Qed.

(** X7: evaluating the module throws only for an absent or empty
    [process.env.MONGO_URI], and then it throws the configuration error;
    for any other value it returns, binds [MONGODB_URI] to that value, leaves
    [global.mongoose] referring to the record bound to [cached], and touches
    neither the promises, nor the job queue, nor the driver. *)
Theorem module_init_throws_only_without_uri w :
  (∀ err, module_init w = inl err →
     err = config_error ∧ (uri_of w = None ∨ uri_of w = Some EmptyString)) ∧
  (∀ s, uri_of w = Some s → s ≠ EmptyString →
     ∃ m w1, module_init w = inr (m, w1) ∧
             MONGODB_URI m = Some s ∧
             global_mongoose w1 = Some (cached m) ∧
             promises w1 = promises w ∧ reactions w1 = reactions w ∧
             connects w1 = connects w ∧ calls w1 = calls w).
Proof.
  split.
  - intros err. unfold module_init. fold (uri_of w).
    destruct (uri_of w) as [s|] eqn:Hu; simpl.
    + destruct (String.eqb s EmptyString) eqn:Hs; simpl.
      * apply String.eqb_eq in Hs as ->. intros [= <-]. auto.
      * by destruct (global_mongoose w).
    + intros [= <-]. auto.
  - intros s Hu Hs. unfold module_init. fold (uri_of w). rewrite Hu. simpl.
    destruct (String.eqb s EmptyString) eqn:Hse.
    { by apply String.eqb_eq in Hse. }
    simpl. destruct (global_mongoose w); eexists _, _; split; done.
Qed.

End Further.

(** ** The further properties on the scenarios *)

Lemma handshake_iff_called_witness :
  length (connects w_connected) = 1 ∧
  connects (boot env_local) = [].
Proof.
  split.
  - apply (proj2 (handshake_iff_called env_local trace_connected w_connected
                    ltac:(vm_compute; reflexivity))).
    discriminate.
  - apply (proj1 (handshake_iff_called env_local [] (boot env_local) eq_refl)).
    reflexivity.
Defined.

Lemma callers_agree_on_outcome_witness :
  Fulfilled the_handle = Fulfilled the_handle ∧
  ∃ u p0, connects w_connected = [(u, p0)] ∧
          promises w_connected !! p0 = Some (Fulfilled the_handle).
Proof.
  apply (callers_agree_on_outcome env_local trace_connected w_connected 0 5
           (Fulfilled the_handle) (Fulfilled the_handle)).
  - vm_compute. reflexivity.
  - apply list_elem_of_here.
  - do 3 apply list_elem_of_further. apply list_elem_of_here.
  - reflexivity.
  - discriminate.
  - reflexivity.
  - discriminate.
Defined.

Lemma native_connection_iff_connected_witness :
  getMongoNativeConnection m0 w_connected
  = Some (Some (connection the_handle), w_connected).
Proof.
  apply (proj2 (native_connection_iff_connected env_local trace_connected w_connected
                  ltac:(vm_compute; reflexivity))
           0 the_handle [] w_connected m0).
  - apply list_elem_of_here.
  - reflexivity.
  - reflexivity.
  - apply list_elem_of_here.
Defined.

Lemma drain_settles_every_caller_witness :
  ∃ w', exec (drain w_refused) w_refused = Some w' ∧
        reactions w' = [] ∧
        ∀ q, q ∈ calls w' → promises w' !! q = Some (Rejected refused).
Proof.
  destruct (drain_settles_every_caller
              env_local (trace_joined ++ [DriverReject 1 refused]) w_refused
              (Some uri) 1 (Rejected refused))
    as (w' & Hrun & Hrs & _ & _ & Hall & _).
  - vm_compute. reflexivity.
  - reflexivity.
  - reflexivity.
  - discriminate.
  - exists w'. split; [exact Hrun|]. split; [exact Hrs|exact Hall].
Defined.

Lemma module_init_throws_only_without_uri_witness :
  ∃ m w1, module_init (boot env_local) = inr (m, w1) ∧
          MONGODB_URI m = Some uri ∧ global_mongoose w1 = Some (cached m).
Proof.
  destruct (proj2 (module_init_throws_only_without_uri (boot env_local)) uri)
    as (m & w1 & Hrun & Hu & Hg & _).
  - vm_compute. reflexivity.
  - discriminate.
  - exists m, w1. split; [exact Hrun|]. split; [exact Hu|exact Hg].
Defined.

Lemma connect_receives_nonempty_uri_witness :
  ∃ s m, Some uri_other = Some s ∧ s ≠ EmptyString ∧
         m ∈ modules w_reconfigured ∧ MONGODB_URI m = Some s.
Proof.
  refine (proj1 (connect_receives_nonempty_uri
                   env_local trace_reconfigured w_reconfigured _)
            (Some uri_other) 1 _).
  - vm_compute. reflexivity.
  - apply list_elem_of_here.
Defined.

Lemma one_record_shared_by_all_instances_witness :
  length (caches w_reconfigured) ≤ 1 ∧
  cached m0 = cached {| MONGODB_URI := Some uri_other; cached := 0 |}.
Proof.
  destruct (one_record_shared_by_all_instances
              env_local trace_reconfigured w_reconfigured) as (Hlen & _ & Hsame).
  - vm_compute. reflexivity.
  - split; [exact Hlen|]. apply Hsame.
    + apply list_elem_of_here.
    + apply list_elem_of_further, list_elem_of_here.
Defined.

Lemma C9_witness :
  ∃ w2 w3 c3,
    exec [DriverReject 1 refused] w_third = Some w2 ∧
    exec (drain w2) w2 = Some w3 ∧
    promises w3 !! 4 = Some (Rejected refused) ∧
    caches w3 !! 0 = Some c3 ∧ conn c3 = None.
Proof.
  destruct (proj2 C9_rejection_leaves_conn env_local trace_joined w_joined 0 w_third)
    as (q & r & c0 & Hcl & Hg & Hc0 & _ & Hlater).
  - vm_compute. reflexivity.
  - vm_compute. reflexivity.
  - injection Hg as <-. injection Hc0 as <-.
    change ([0; 3; 4] = [0; 3; q]) in Hcl. injection Hcl as <-.
    destruct (Hlater [DriverReject 1 refused]
                (with_promises [Pending; Rejected refused; Pending; Pending; Pending]
                   w_third))
      as (_ & Hdrain & _).
    + vm_compute. reflexivity.
    + destruct (Hdrain (Some uri) 1 refused eq_refl eq_refl)
        as (w3 & c3 & Hrun & Hq & Hc3 & Hconn & _).
      eexists _, w3, c3. split; [vm_compute; reflexivity|].
      split; [exact Hrun|]. split; [exact Hq|]. split; [exact Hc3|exact Hconn].
Defined.
